(** * ShapeNetCore dataset index: a shallow embedding of
    [pytorch3d/datasets/shapenet/shapenet_core.py]

    The class [ShapeNetCore] walks a directory tree
    [<data_dir>/<synset>/<model>/<mesh file>], records the pairs
    (synset, model) whose mesh file exists, and resolves an integer index
    into a labelled record on demand.

    Everything the code reaches outside of itself is a field of an
    environment record: the file-system predicates of [os] and [os.path],
    the bundled JSON dictionaries, the order in which Python walks a set,
    and the mesh loader [load_obj]. *)

From Stdlib Require Import ZArith Lia Ascii.
From stdpp Require Import base decidable option list strings pretty gmap.

Set Warnings "-clear-no-such-hyp".

Local Open Scope string_scope.
Local Open Scope list_scope.
Local Open Scope Z_scope.

(** ** Strings, paths *)

Definition nl : string := String (Ascii.ascii_of_nat 10) "".
Definition spaces (n : nat) : string := String.concat "" (replicate n " ").

(** [b.startswith('/')] *)
Definition startswith_sep (b : string) : bool :=
  match b with
  | String c _ => bool_decide (c = "/"%char)
  | EmptyString => false
  end.

(** [path.endswith('/')] *)
Fixpoint endswith_sep (p : string) : bool :=
  match p with
  | EmptyString => false
  | String c EmptyString => bool_decide (c = "/"%char)
  | String _ p' => endswith_sep p'
  end.

(** One turn of the loop of [posixpath.join]. *)
Definition join_step (p b : string) : string :=
  if startswith_sep b then b
  else if bool_decide (p = "") || endswith_sep p then p +:+ b
  else p +:+ "/" +:+ b.

(** [os.path.join(a, *p)] *)
Definition path_join (a : string) (p : list string) : string :=
  fold_left join_step p a.

(** ** Python dictionaries with string keys and values

    A [dict] keeps its keys in insertion order; assigning to a key that
    is present overwrites the value in place. *)

Definition pydict : Type := list (string * string).

Fixpoint dict_get (d : pydict) (k : string) : option string :=
  match d with
  | [] => None
  | (k', v) :: d' => if decide (k = k') then Some v else dict_get d' k
  end.

(** [d[k] = v] *)
Fixpoint dict_set (d : pydict) (k v : string) : pydict :=
  match d with
  | [] => [(k, v)]
  | (k', v') :: d' =>
      if decide (k = k') then (k', v) :: d' else (k', v') :: dict_set d' k v
  end.

(** [k in d.keys()] *)
Definition dict_contains (d : pydict) (k : string) : bool :=
  bool_decide (is_Some (dict_get d k)).

(** [json.load] of an object whose members are given in file order. *)
Definition json_load (members : list (string * string)) : pydict :=
  fold_left (λ d kv, dict_set d kv.1 kv.2) members [].

(** [{label: offset for offset, label in d.items()}] *)
Definition invert_dict (d : pydict) : pydict :=
  fold_left (λ inv ol, dict_set inv ol.2 ol.1) d [].

(** ** Exceptions, warnings *)

Inductive exn : Type :=
  | ValueError (msg : string)
  | KeyError (key : string)
  | IndexError
  | OSError (p : string)
  | JSONDecodeError (msg : string)
  | LoaderFailure (msg : string).

(** A computation either raises or returns, and in both cases leaves the
    warnings it has issued so far. *)
Definition M (A : Type) : Type := (exn + A) * list string.

Definition ret {A} (a : A) : M A := (inr a, []).
Definition raise {A} (e : exn) : M A := (inl e, []).
Definition warn (msg : string) : M unit := (inr tt, [msg]).

Definition bind {A B} (c : M A) (k : A → M B) : M B :=
  match c with
  | (inl e, w) => (inl e, w)
  | (inr a, w) => let '(r, w') := k a in (r, w ++ w')
  end.

Notation "'do' x <- c ; k" := (bind c (λ x, k))
  (at level 10, x pattern, c at level 100, k at level 200).

(** [for x in l: s = body(x, s)] *)
Fixpoint for_each {A S} (l : list A) (body : A → S → M S) (s : S) : M S :=
  match l with
  | [] => ret s
  | x :: l' => do s' <- body x s; for_each l' body s'
  end.

(** ** The environment *)

(** What [open] followed by [json.load] gives on a file: [open] raises
    [OSError]; or [json.load] raises [JSONDecodeError], a subclass of
    [ValueError], with its message; or the members of the JSON object, in
    the order of the file. *)
Inductive json_file : Type :=
  | Unreadable
  | Malformed (msg : string)
  | Parsed (members : list (string * string)).

Record Env : Type := {
  (** [os.path.isdir] *)
  isdir : string → bool;
  (** [os.path.exists] *)
  path_exists : string → bool;
  (** [os.listdir]; [None] when it raises *)
  listdir : string → option (list string);
  (** The directory of the module, [SYNSET_DICT_DIR]. *)
  SYNSET_DICT_DIR : string;
  (** [open] followed by [json.load] *)
  open_json : string → json_file;
  (** The order in which [for synset in synset_set] visits a set.
      Python fixes none: it depends on the hashes of the strings. *)
  set_order : gset string → list string;
  set_order_perm : ∀ S, set_order S ≡ₚ elements S;
}.

(** The members of a JSON file that can be opened and parsed. *)
Definition read_json (env : Env) (p : string)
    : option (list (string * string)) :=
  match open_json env p with
  | Parsed members => Some members
  | _ => None
  end.

Section Loader.

(** Vertex tensor, the faces structure returned by [load_obj], and the
    tensor found in its [verts_idx] attribute. *)
Context {Verts Faces VertsIdx : Type}.

Record Loader : Type := {
  (** [pytorch3d.io.load_obj], with the message of the failure when it raises *)
  load_obj : string → string + (Verts * Faces);
  verts_idx : Faces → VertsIdx;
}.

End Loader.

Arguments Loader : clear implicits.

Definition os_listdir (env : Env) (p : string) : M (list string) :=
  match listdir env p with
  | Some names => ret names
  | None => raise (OSError p)
  end.

(** [d[k]] *)
Definition dict_subscript (d : pydict) (k : string) : M string :=
  match dict_get d k with
  | Some v => ret v
  | None => raise (KeyError k)
  end.

(** ** Warning messages *)

(** The message of the warning at lines 72-76. *)
Definition msg_unresolved (synset data_dir : string) : string :=
  "Synset category " +:+ synset
  +:+ " either not part of ShapeNetCore dataset" +:+ nl +:+ spaces 25
  +:+ "or cannot be found in " +:+ data_dir +:+ ".".

(** The message of the warning at lines 87-93. *)
Definition msg_unknown (synset label : string) (version : Z) (data_dir : string)
    : string :=
  "Synset category " +:+ synset +:+ "(" +:+ label
  +:+ ") is part of ShapeNetCore ver." +:+ pretty version +:+ nl +:+ spaces 24
  +:+ "but not found in " +:+ data_dir +:+ ".".

(** The message of the warning at lines 106-110. *)
Definition msg_no_mesh (model synset : string) : string :=
  " Object file not found in the model directory " +:+ model +:+ nl
  +:+ spaces 24 +:+ "under synset directory " +:+ synset +:+ ".".

(** ** The constructor *)

Record ShapeNetCore : Type := {
  data_dir : string;
  model_dir : string;
  synset_dict : pydict;
  synset_ids : list string;
  model_ids : list string;
}.

(** Lines 49-51: the dictionary of the version. *)
Definition dict_file (version : Z) : string :=
  "shapenet_synset_dict_v" +:+ pretty version +:+ ".json".

Definition load_synset_dict (env : Env) (version : Z) : M pydict :=
  let file := path_join (SYNSET_DICT_DIR env) [dict_file version] in
  match open_json env file with
  | Parsed members => ret (json_load members)
  | Unreadable => raise (OSError file)
  | Malformed msg => raise (JSONDecodeError msg)
  end.

(** Lines 63-77: the body of the loop over the requested categories. *)
Definition resolve_synset (env : Env) (root : string) (dict inv : pydict)
    (synset : string) (synset_set : gset string) : M (gset string) :=
  if dict_contains dict synset && isdir env (path_join root [synset]) then
    ret ({[ synset ]} ∪ synset_set)
  else
    match dict_get inv synset with
    | Some offset =>
        if isdir env (path_join root [offset]) then
          ret ({[ offset ]} ∪ synset_set)
        else
          do _ <- warn (msg_unresolved synset root); ret synset_set
    | None => do _ <- warn (msg_unresolved synset root); ret synset_set
    end.

(** Lines 59-77: categories are specified. *)
Definition resolve_given (env : Env) (root : string) (dict inv : pydict)
    (synsets : list string) : M (gset string) :=
  for_each synsets (resolve_synset env root dict inv) ∅.

(** Lines 85-94: the body of the loop over the categories found on disk. *)
Definition check_known (root : string) (dict : pydict) (version : Z)
    (synset : string) (_ : unit) : M unit :=
  if negb (dict_contains dict synset) then
    do label <- dict_subscript dict synset;
    warn (msg_unknown synset label version root)
  else ret tt.

(** Lines 79-94: no category is given. *)
Definition resolve_all (env : Env) (root : string) (dict : pydict)
    (version : Z) : M (gset string) :=
  do names <- os_listdir env root;
  let synset_set : gset string :=
    list_to_set (List.filter (λ synset, isdir env (path_join root [synset])) names) in
  do _ <- for_each (set_order env synset_set) (check_known root dict version) tt;
  ret synset_set.

(** Lines 103-114: the body of the loop over the entries of a category. *)
Definition index_model (env : Env) (root mesh synset model : string)
    (ids : list string * list string) : M (list string * list string) :=
  if negb (path_exists env (path_join root [synset; model; mesh])) then
    do _ <- warn (msg_no_mesh model synset); ret ids
  else ret (ids.1 ++ [synset], ids.2 ++ [model]).

(** Lines 102-114: the body of the loop over the resolved categories. *)
Definition index_synset (env : Env) (root mesh synset : string)
    (ids : list string * list string) : M (list string * list string) :=
  do models <- os_listdir env (path_join root [synset]);
  for_each models (index_model env root mesh synset) ids.

(** Lines 99-114.  The set is walked in the order that the environment
    gives for it. *)
Definition build_index (env : Env) (root mesh : string)
    (synset_set : gset string) : M (list string * list string) :=
  for_each (set_order env synset_set) (index_synset env root mesh) ([], []).

(** Lines 59-94: the set of categories to load. *)
Definition resolve (env : Env) (root : string) (dict : pydict)
    (synsets : option (list string)) (version : Z) : M (gset string) :=
  match synsets with
  | Some l => resolve_given env root dict (invert_dict dict) l
  | None => resolve_all env root dict version
  end.

(** [version in [1, 2]] *)
Definition version_ok (version : Z) : bool :=
  bool_decide (version ∈ [1; 2]).

(** Lines 44-46. *)
Definition mesh_of_version (version : Z) : string :=
  if bool_decide (version = 1) then "model.obj"
  else "models/model_normalized.obj".

(** [ShapeNetCore.__init__] *)
Definition init (env : Env) (root : string) (synsets : option (list string))
    (version : Z) : M ShapeNetCore :=
  if negb (version_ok version) then
    raise (ValueError "Version number must be either 1 or 2.")
  else
    let mesh := mesh_of_version version in
    do dict <- load_synset_dict env version;
    do synset_set <- resolve env root dict synsets version;
    do ids <- build_index env root mesh synset_set;
    ret {| data_dir := root; model_dir := mesh; synset_dict := dict;
           synset_ids := ids.1; model_ids := ids.2 |}.

(** [ShapeNetCore.__len__] *)
Definition len (self : ShapeNetCore) : Z :=
  Z.of_nat (length (model_ids self)).

(** ** Indexed access *)

(** [l[idx]] on a Python list: a negative index counts from the end. *)
Definition list_subscript (l : list string) (idx : Z) : exn + string :=
  let n := Z.of_nat (length l) in
  let i := if bool_decide (idx < 0) then idx + n else idx in
  if bool_decide (i < 0) || bool_decide (n ≤ i) then inl IndexError
  else
    match l !! Z.to_nat i with
    | Some x => inr x
    | None => inl IndexError
    end.

Section Access.

Context {Verts Faces VertsIdx : Type}.

(** The dictionary returned by [__getitem__]. *)
Record Model : Type := {
  synset_id : string;
  model_id : string;
  verts : Verts;
  faces : VertsIdx;
  label : string;
}.

Variable loader : Loader Verts Faces VertsIdx.

(** [ShapeNetCore.__getitem__] *)
Definition getitem (self : ShapeNetCore) (idx : Z) : exn + Model :=
  match list_subscript (synset_ids self) idx with
  | inl e => inl e
  | inr sid =>
    match list_subscript (model_ids self) idx with
    | inl e => inl e
    | inr mid =>
      let model_path :=
        path_join (data_dir self) [sid; mid; model_dir self] in
      match load_obj loader model_path with
      | inl msg => inl (LoaderFailure msg)
      | inr (v, f) =>
        match dict_get (synset_dict self) sid with
        | None => inl (KeyError sid)
        | Some lbl =>
            inr {| synset_id := sid; model_id := mid; verts := v;
                   faces := verts_idx loader f; label := lbl |}
        end
      end
    end
  end.

End Access.

Arguments Model : clear implicits.

(** ** Derived notions used in the statements *)

(** The code that a requested identifier resolves to, if any. *)
Definition resolved_code (env : Env) (root : string) (dict : pydict)
    (synset : string) : option string :=
  if dict_contains dict synset && isdir env (path_join root [synset]) then
    Some synset
  else
    match dict_get (invert_dict dict) synset with
    | Some offset =>
        if isdir env (path_join root [offset]) then Some offset else None
    | None => None
    end.

(** The warning that a requested identifier causes, if any. *)
Definition resolution_warning (env : Env) (root : string) (dict : pydict)
    (synset : string) : option string :=
  match resolved_code env root dict synset with
  | Some _ => None
  | None => Some (msg_unresolved synset root)
  end.

(** The canonical code of a requested identifier, in the words of the
    specification: the identifier itself when it is a code of the
    dictionary, otherwise the code that the inverse dictionary gives for
    it as a label. *)
Definition canonical_code (dict : pydict) (synset : string) : option string :=
  if dict_contains dict synset then Some synset
  else dict_get (invert_dict dict) synset.

(** The mesh file of a model is on disk. *)
Definition has_mesh (env : Env) (root mesh synset model : string) : bool :=
  path_exists env (path_join root [synset; model; mesh]).

(** The entries of a category directory. *)
Definition listing (env : Env) (root synset : string) : list string :=
  default [] (listdir env (path_join root [synset])).

(** The pairs that a category contributes, in the order of its listing. *)
Definition entries_of (env : Env) (root mesh synset : string)
    : list (string * string) :=
  pair synset <$> List.filter (has_mesh env root mesh synset) (listing env root synset).

(** The warnings that a category causes, in the order of its listing. *)
Definition mesh_warnings (env : Env) (root mesh synset : string) : list string :=
  (λ model, msg_no_mesh model synset) <$>
    List.filter (λ model, negb (has_mesh env root mesh synset model))
      (listing env root synset).

(** The pairs (synset, model) of a dataset, by position. *)
Definition index_of (self : ShapeNetCore) : list (string * string) :=
  zip (synset_ids self) (model_ids self).

(** The position that a subscript within range denotes. *)
Definition position (n idx : Z) : nat :=
  Z.to_nat (if bool_decide (idx < 0) then idx + n else idx).

(** What [getitem] does once both subscripts and the label are known. *)
Definition fetch {Verts Faces VertsIdx} (loader : Loader Verts Faces VertsIdx)
    (self : ShapeNetCore) (c m l : string) : exn + Model Verts VertsIdx :=
  match load_obj loader (path_join (data_dir self) [c; m; model_dir self]) with
  | inl msg => inl (LoaderFailure msg)
  | inr (v, f) =>
      inr {| synset_id := c; model_id := m; verts := v;
             faces := verts_idx loader f; label := l |}
  end.

(** ** Sample data

    A small dictionary and directory tree on which the statements below are
    exercised. *)

Module Sample.

Definition assoc {A} (l : list (string * A)) (k : string) : option A :=
  snd <$> List.find (λ kv, bool_decide (kv.1 = k)) l.

(** A file system given by its directories, each with its entries, and
    its plain files. *)
Definition mk_env (dirs : list (string * list string)) (files : list string)
    (res : list (string * list (string * string))) : Env :=
  {| isdir p := bool_decide (is_Some (assoc dirs p));
     path_exists p :=
       bool_decide (is_Some (assoc dirs p)) || bool_decide (p ∈ files);
     listdir p := assoc dirs p;
     SYNSET_DICT_DIR := "/pkg/shapenet";
     open_json p :=
       match assoc res p with
       | Some members => Parsed members
       | None => Unreadable
       end;
     set_order := elements;
     set_order_perm := λ S, Permutation_refl (elements S) |}.

(** The same environment with another order of walking a set. *)
Definition with_order (env : Env) (order : gset string → list string)
    (Hperm : ∀ S, order S ≡ₚ elements S) : Env :=
  {| isdir := isdir env; path_exists := path_exists env;
     listdir := listdir env; SYNSET_DICT_DIR := SYNSET_DICT_DIR env;
     open_json := open_json env;
     set_order := order; set_order_perm := Hperm |}.


Definition members_v1 : list (string * string) :=
  [("02691156", "airplane"); ("02958343", "car"); ("02858304", "boat");
   ("04530566", "watercraft")].

Definition members_v2 : list (string * string) :=
  [("02691156", "airplane"); ("02958343", "car"); ("04530566", "watercraft")].

Definition bundled : list (string * list (string * string)) :=
  [("/pkg/shapenet/shapenet_synset_dict_v1.json", members_v1);
   ("/pkg/shapenet/shapenet_synset_dict_v2.json", members_v2)].

(** Two known categories; one airplane model lacks its mesh file. *)
Definition env1 : Env :=
  mk_env [("root", ["02691156"; "02958343"; "README"]);
          ("root/02691156", ["m1"; "m2"]);
          ("root/02691156/m1", ["model.obj"]);
          ("root/02691156/m2", []);
          ("root/02958343", ["c1"]);
          ("root/02958343/c1", ["model.obj"])]
         ["root/README"; "root/02691156/m1/model.obj";
          "root/02958343/c1/model.obj"]
         bundled.

(** As [env1], with sets walked in the opposite order. *)
Definition env1_rev : Env :=
  with_order env1 (λ S, reverse (elements S))
    (λ S, reverse_Permutation (elements S)).


(** As [env1], with a directory that the dictionary does not know. *)
Definition env2 : Env :=
  mk_env [("root", ["02691156"; "extra"]);
          ("root/02691156", ["m1"]);
          ("root/02691156/m1", ["model.obj"]);
          ("root/extra", ["x1"]);
          ("root/extra/x1", ["model.obj"])]
         ["root/02691156/m1/model.obj"; "root/extra/x1/model.obj"]
         bundled.

(** One category with two model directories, one of them without mesh. *)
Definition env3 : Env :=
  mk_env [("root", ["02691156"]);
          ("root/02691156", ["full"; "bare"]);
          ("root/02691156/full", ["model.obj"]);
          ("root/02691156/bare", [])]
         ["root/02691156/full/model.obj"]
         bundled.

(** An empty data directory. *)
Definition env0 : Env := mk_env [("root", [])] [] bundled.

(** A loader that returns the path as vertices and its length as faces,
    and fails on paths that mention [broken]. *)
Definition loader1 : Loader string nat nat :=
  {| load_obj p :=
       if bool_decide (p = "root/02958343/broken/model.obj")
       then inl "cannot parse" else inr (p, String.length p);
     verts_idx f := f |}.

Definition ds1 : ShapeNetCore :=
  {| data_dir := "root"; model_dir := "model.obj";
     synset_dict := members_v1;
     synset_ids := ["02958343"; "02691156"];
     model_ids := ["c1"; "m1"] |}.

(** What the constructor returns on [env1_rev]. *)
Definition ds1_rev : ShapeNetCore :=
  {| data_dir := "root"; model_dir := "model.obj";
     synset_dict := members_v1;
     synset_ids := ["02691156"; "02958343"];
     model_ids := ["m1"; "c1"] |}.

Definition ds0 : ShapeNetCore :=
  {| data_dir := "root"; model_dir := "model.obj";
     synset_dict := members_v1; synset_ids := []; model_ids := [] |}.

End Sample.

(** ** Properties *)

(** *** The order of a set, the dictionary file *)

Lemma elem_of_set_order env (S : gset string) c : c ∈ set_order env S ↔ c ∈ S.
Proof. by rewrite (set_order_perm env S), elem_of_elements. Qed.

Lemma set_order_elem_1 env (S : gset string) c : c ∈ set_order env S → c ∈ S.
Proof. apply elem_of_set_order. Qed.

Lemma set_order_elem_2 env (S : gset string) c : c ∈ S → c ∈ set_order env S.
Proof. apply elem_of_set_order. Qed.

Lemma NoDup_set_order env (S : gset string) : NoDup (set_order env S).
Proof. rewrite (set_order_perm env S). apply NoDup_elements. Qed.

Lemma set_order_empty env : set_order env ∅ = [].
Proof.
  apply Permutation_nil_r. rewrite (set_order_perm env ∅).
  by rewrite elements_empty.
Qed.

Lemma read_json_Some env p members :
  read_json env p = Some members ↔ open_json env p = Parsed members.
Proof.
  unfold read_json. destruct (open_json env p); split; intros ?; by simplify_eq.
Qed.

Lemma load_synset_dict_Some env version members :
  read_json env (path_join (SYNSET_DICT_DIR env) [dict_file version])
    = Some members →
  load_synset_dict env version = (inr (json_load members), []).
Proof.
  intros Hj%read_json_Some. unfold load_synset_dict. by rewrite Hj.
Qed.

Lemma load_synset_dict_None env version :
  read_json env (path_join (SYNSET_DICT_DIR env) [dict_file version]) = None →
  open_json env (path_join (SYNSET_DICT_DIR env) [dict_file version])
    = Unreadable ∧
  load_synset_dict env version
    = (inl (OSError (path_join (SYNSET_DICT_DIR env) [dict_file version])), [])
  ∨ ∃ msg,
      open_json env (path_join (SYNSET_DICT_DIR env) [dict_file version])
        = Malformed msg ∧
      load_synset_dict env version = (inl (JSONDecodeError msg), []).
Proof.
  unfold read_json, load_synset_dict.
  destruct (open_json env _) as [|msg|members]; intros ?; simplify_eq.
  - by left.
  - right. by exists msg.
Qed.

Lemma load_synset_dict_inr env version dict w :
  load_synset_dict env version = (inr dict, w) →
  ∃ members,
    read_json env (path_join (SYNSET_DICT_DIR env) [dict_file version])
      = Some members ∧
    dict = json_load members ∧ w = [].
Proof.
  unfold read_json, load_synset_dict, ret, raise.
  destruct (open_json env _) as [|msg|members]; intros ?; simplify_eq.
  by exists members.
Qed.

(** *** The monad *)

Lemma bind_inr {A B} (c : M A) (k : A → M B) b w :
  bind c k = (inr b, w) →
  ∃ a w1 w2, c = (inr a, w1) ∧ k a = (inr b, w2) ∧ w = w1 ++ w2.
Proof.
  destruct c as [[e|a] w1]; simpl; [discriminate|].
  destruct (k a) as [r w2] eqn:Hk. intros [= -> <-]. by exists a, w1, w2.
Qed.

Lemma bind_ret_l {A B} (a : A) (k : A → M B) : bind (ret a) k = k a.
Proof. unfold bind, ret. by destruct (k a). Qed.

(** *** Dictionaries *)

Lemma dict_get_set d k v k' :
  dict_get (dict_set d k v) k' = if decide (k' = k) then Some v else dict_get d k'.
Proof.
  induction d as [|[k0 v0] d IH]; simpl.
  - by destruct (decide (k' = k)).
  - destruct (decide (k = k0)) as [->|Hk]; simpl.
    + by destruct (decide (k' = k0)).
    + destruct (decide (k' = k0)) as [->|]; [|done].
      by rewrite decide_False by done.
Qed.

Lemma dict_contains_spec d k : dict_contains d k = true ↔ k ∈ d.*1.
Proof.
  unfold dict_contains. rewrite bool_decide_eq_true.
  induction d as [|[k0 v0] d IH]; simpl.
  - rewrite elem_of_nil. split; [intros [? ?]; discriminate|intros []].
  - rewrite elem_of_cons. destruct (decide (k = k0)) as [->|]; [by split; eauto|].
    rewrite IH. split; [auto|by intros [->|?]].
Qed.

Lemma dict_get_elem d k v : dict_get d k = Some v → (k, v) ∈ d.
Proof.
  induction d as [|[k0 v0] d IH]; simpl; [done|].
  destruct (decide (k = k0)) as [->|]; [intros [= ->]; left|right; auto].
Qed.

Lemma dict_get_Some_contains d k v :
  dict_get d k = Some v → dict_contains d k = true.
Proof. intros H. unfold dict_contains. rewrite bool_decide_eq_true, H. eauto. Qed.

Lemma dict_contains_get d k :
  dict_contains d k = true → ∃ v, dict_get d k = Some v.
Proof. unfold dict_contains. rewrite bool_decide_eq_true. by intros [v ?]; eauto. Qed.

(** A label found in the inverse dictionary comes from an item of the
    dictionary. *)
Lemma invert_dict_elem d l c :
  dict_get (invert_dict d) l = Some c → (c, l) ∈ d.
Proof.
  unfold invert_dict.
  assert (∀ acc, (dict_get acc l = Some c → (c, l) ∈ d) →
    ∀ items, (∀ x, x ∈ items → x ∈ d) →
    dict_get (fold_left (λ inv ol, dict_set inv ol.2 ol.1) items acc) l = Some c →
    (c, l) ∈ d) as H.
  { intros acc Hacc items. revert acc Hacc.
    induction items as [|[c0 l0] items IH]; simpl; intros acc Hacc Hsub; [done|].
    apply IH.
    - rewrite dict_get_set. destruct (decide (l = l0)) as [->|]; [|done].
      intros [= ->]. apply Hsub. left.
    - intros x Hx. apply Hsub. by right. }
  apply (H [] ltac:(done) d). auto.
Qed.

Lemma invert_dict_key d l c :
  dict_get (invert_dict d) l = Some c → dict_contains d c = true.
Proof.
  intros H%invert_dict_elem. apply dict_contains_spec.
  apply list_elem_of_fmap. by exists (c, l).
Qed.

(** *** Resolution of requested categories *)

Lemma resolve_synset_eq env root dict synset S :
  resolve_synset env root dict (invert_dict dict) synset S =
  match resolved_code env root dict synset with
  | Some c => (inr ({[ c ]} ∪ S), [])
  | None => (inr S, [msg_unresolved synset root])
  end.
Proof.
  unfold resolve_synset, resolved_code.
  destruct (dict_contains dict synset && isdir env (path_join root [synset]));
    [done|].
  destruct (dict_get (invert_dict dict) synset) as [offset|]; [|done].
  by destruct (isdir env (path_join root [offset])).
Qed.

Lemma for_each_resolve_synset env root dict synsets S :
  for_each synsets (resolve_synset env root dict (invert_dict dict)) S =
  (inr (list_to_set (omap (resolved_code env root dict) synsets) ∪ S),
   omap (resolution_warning env root dict) synsets).
Proof.
  revert S. induction synsets as [|s synsets IH]; intros S; simpl.
  - unfold ret. f_equal. f_equal. set_solver.
  - rewrite resolve_synset_eq. unfold resolution_warning at 1.
    destruct (resolved_code env root dict s) as [c|]; simpl;
      rewrite IH; simpl; do 2 f_equal; set_solver.
Qed.

Lemma resolve_given_eq env root dict synsets :
  resolve_given env root dict (invert_dict dict) synsets =
  (inr (list_to_set (omap (resolved_code env root dict) synsets)),
   omap (resolution_warning env root dict) synsets).
Proof.
  unfold resolve_given. rewrite for_each_resolve_synset.
  do 2 f_equal. set_solver.
Qed.

Lemma resolved_code_key env root dict s c :
  resolved_code env root dict s = Some c → dict_contains dict c = true.
Proof.
  unfold resolved_code.
  destruct (dict_contains dict s && isdir env (path_join root [s])) eqn:Hs.
  - intros ?; simplify_eq. by apply andb_true_iff in Hs as [? _].
  - destruct (dict_get (invert_dict dict) s) as [o|] eqn:Ho; [|done].
    destruct (isdir env (path_join root [o])); [|done].
    intros ?; simplify_eq. by eapply invert_dict_key.
Qed.

Lemma resolved_code_isdir env root dict s c :
  resolved_code env root dict s = Some c → isdir env (path_join root [c]) = true.
Proof.
  unfold resolved_code.
  destruct (dict_contains dict s && isdir env (path_join root [s])) eqn:Hs.
  - intros ?; simplify_eq. by apply andb_true_iff in Hs as [_ ?].
  - destruct (dict_get (invert_dict dict) s) as [o|] eqn:Ho; [|done].
    destruct (isdir env (path_join root [o])) eqn:Hd; [|done].
    by intros ?; simplify_eq.
Qed.

(** *** The index *)

Lemma for_each_index_model env root mesh synset models ids :
  for_each models (index_model env root mesh synset) ids =
  (inr (ids.1 ++ (pair synset <$> List.filter (has_mesh env root mesh synset) models).*1,
        ids.2 ++ (pair synset <$> List.filter (has_mesh env root mesh synset) models).*2),
   (λ model, msg_no_mesh model synset) <$>
     List.filter (λ model, negb (has_mesh env root mesh synset model)) models).
Proof.
  revert ids. induction models as [|m models IH]; intros [sids mids]; simpl.
  - by rewrite !app_nil_r.
  - unfold index_model at 1. fold (has_mesh env root mesh synset m).
    destruct (has_mesh env root mesh synset m); simpl; rewrite IH; simpl.
    + by rewrite <- !app_assoc.
    + done.
Qed.

Lemma index_synset_eq env root mesh synset ids :
  is_Some (listdir env (path_join root [synset])) →
  index_synset env root mesh synset ids =
  (inr (ids.1 ++ (entries_of env root mesh synset).*1,
        ids.2 ++ (entries_of env root mesh synset).*2),
   mesh_warnings env root mesh synset).
Proof.
  intros [models Hm]. unfold index_synset, os_listdir, entries_of,
    mesh_warnings, listing. rewrite Hm. rewrite bind_ret_l.
  by rewrite for_each_index_model.
Qed.

Lemma index_synset_raise env root mesh synset ids :
  listdir env (path_join root [synset]) = None →
  index_synset env root mesh synset ids =
  (inl (OSError (path_join root [synset])), []).
Proof. intros Hm. unfold index_synset, os_listdir. by rewrite Hm. Qed.

Lemma for_each_index_synset env root mesh codes ids :
  Forall (λ c, is_Some (listdir env (path_join root [c]))) codes →
  for_each codes (index_synset env root mesh) ids =
  (inr (ids.1 ++ (codes ≫= entries_of env root mesh).*1,
        ids.2 ++ (codes ≫= entries_of env root mesh).*2),
   codes ≫= mesh_warnings env root mesh).
Proof.
  intros Hall. revert ids.
  induction Hall as [|c codes Hc Hall IH]; intros [sids mids]; simpl.
  - by rewrite !app_nil_r.
  - rewrite (index_synset_eq _ _ _ _ _ Hc). simpl. rewrite IH. simpl.
    by rewrite !fmap_app, !app_assoc.
Qed.

Lemma for_each_index_synset_inr env root mesh codes ids ids' w :
  for_each codes (index_synset env root mesh) ids = (inr ids', w) →
  Forall (λ c, is_Some (listdir env (path_join root [c]))) codes.
Proof.
  revert ids ids' w. induction codes as [|c codes IH]; intros ids ids' w; simpl.
  - constructor.
  - intros (ids1 & w1 & w2 & H1 & H2 & _)%bind_inr. constructor; [|by eauto].
    destruct (listdir env (path_join root [c])) eqn:Hl; [by eauto|].
    by rewrite (index_synset_raise _ _ _ _ _ Hl) in H1.
Qed.

Lemma build_index_inr env root mesh S ids w :
  build_index env root mesh S = (inr ids, w) →
  Forall (λ c, is_Some (listdir env (path_join root [c]))) (set_order env S) ∧
  ids.1 = (set_order env S ≫= entries_of env root mesh).*1 ∧
  ids.2 = (set_order env S ≫= entries_of env root mesh).*2 ∧
  w = set_order env S ≫= mesh_warnings env root mesh.
Proof.
  unfold build_index. intros H.
  pose proof (for_each_index_synset_inr _ _ _ _ _ _ _ H) as Hall.
  rewrite (for_each_index_synset _ _ _ _ _ Hall) in H. by simplify_eq/=.
Qed.

(** What a successful construction went through. *)
Lemma init_inr env root synsets version self w :
  init env root synsets version = (inr self, w) →
  version_ok version = true ∧
  ∃ members S w1 w2,
    read_json env (path_join (SYNSET_DICT_DIR env) [dict_file version])
      = Some members ∧
    resolve env root (json_load members) synsets version = (inr S, w1) ∧
    build_index env root (mesh_of_version version) S
      = (inr (synset_ids self, model_ids self), w2) ∧
    w = w1 ++ w2 ∧
    data_dir self = root ∧
    model_dir self = mesh_of_version version ∧
    synset_dict self = json_load members.
Proof.
  unfold init. destruct (version_ok version); simpl; [|done].
  intros (dict & w0 & w' & Hd & H & ->)%bind_inr. split; [done|].
  apply load_synset_dict_inr in Hd as (members & Hj & -> & ->).
  apply bind_inr in H as (S & w1 & wr & HS & H & ->).
  apply bind_inr in H as ([sids mids] & w2 & w3 & Hb & H & ->).
  unfold ret in H. simplify_eq/=.
  exists members, S, w1, w2. by rewrite app_nil_r.
Qed.

Lemma index_of_init env root synsets version self w :
  init env root synsets version = (inr self, w) →
  ∃ dict S w1,
    synset_dict self = dict ∧
    resolve env root dict synsets version = (inr S, w1) ∧
    Forall (λ c, is_Some (listdir env (path_join root [c]))) (set_order env S) ∧
    index_of self = set_order env S ≫= entries_of env root (mesh_of_version version) ∧
    w = w1 ++ (set_order env S ≫= mesh_warnings env root (mesh_of_version version)).
Proof.
  intros (_ & members & S & w1 & w2 & _ & HS & Hb & -> & _ & _ & Hd)%init_inr.
  apply build_index_inr in Hb as (Hall & H1 & H2 & ->). simpl in *.
  exists (json_load members), S, w1. repeat split; try done.
  unfold index_of. rewrite H1, H2. apply zip_fst_snd.
Qed.

(** *** Categories found on disk *)

Lemma check_known_eq root dict version synset :
  check_known root dict version synset tt =
  if dict_contains dict synset then (inr tt, [])
  else (inl (KeyError synset), []).
Proof.
  unfold check_known, dict_subscript.
  destruct (dict_contains dict synset) eqn:Hc; simpl; [done|].
  destruct (dict_get dict synset) as [v|] eqn:Hg; [|done].
  apply dict_get_Some_contains in Hg. congruence.
Qed.

Lemma for_each_check_known_inr root dict version codes w :
  for_each codes (check_known root dict version) tt = (inr tt, w) →
  Forall (λ c, dict_contains dict c = true) codes ∧ w = [].
Proof.
  revert w. induction codes as [|c codes IH]; intros w; simpl.
  - by intros [= <-].
  - rewrite check_known_eq. destruct (dict_contains dict c) eqn:Hc; [|done].
    simpl. destruct (for_each codes _ tt) as [r w'] eqn:Hr.
    intros ?; simplify_eq. destruct (IH _ eq_refl) as [? ->]. by split; [constructor|].
Qed.

Lemma for_each_check_known_raise root dict version codes c :
  c ∈ codes → dict_contains dict c = false →
  ∃ k, k ∈ codes ∧ dict_contains dict k = false ∧
    for_each codes (check_known root dict version) tt = (inl (KeyError k), []).
Proof.
  induction codes as [|c0 codes IH]; [by intros ?%elem_of_nil|].
  intros Hin Hc. simpl. rewrite check_known_eq.
  destruct (dict_contains dict c0) eqn:Hc0.
  - apply elem_of_cons in Hin as [->|Hin]; [congruence|].
    destruct (IH Hin Hc) as (k & Hk & Hkc & Heq). exists k. simpl.
    rewrite Heq. split; [by right|done].
  - exists c0. split; [by left|done].
Qed.

Lemma resolve_all_inr env root dict version S w :
  resolve_all env root dict version = (inr S, w) →
  ∃ names, listdir env root = Some names ∧
    S = list_to_set (List.filter (λ synset, isdir env (path_join root [synset])) names) ∧
    w = [] ∧
    ∀ c, c ∈ S → dict_contains dict c = true.
Proof.
  unfold resolve_all, os_listdir.
  destruct (listdir env root) as [names|]; [|done]. rewrite bind_ret_l.
  intros ([] & w1 & w2 & Hchk & Hret & ->)%bind_inr.
  unfold ret in Hret. simplify_eq.
  apply for_each_check_known_inr in Hchk as [Hall ->].
  exists names. repeat split; try done.
  intros c Hc. rewrite Forall_forall in Hall. apply Hall.
  by apply set_order_elem_2.
Qed.

Lemma resolve_keys env root dict synsets version S w :
  resolve env root dict synsets version = (inr S, w) →
  ∀ c, c ∈ S → dict_contains dict c = true.
Proof.
  destruct synsets as [l|]; simpl.
  - rewrite resolve_given_eq. intros ?; simplify_eq. intros c Hc.
    apply elem_of_list_to_set, list_elem_of_omap in Hc as (s & _ & Hs).
    by eapply resolved_code_key.
  - intros (names & _ & _ & _ & H)%resolve_all_inr. done.
Qed.

Lemma entries_of_fst env root mesh codes c m :
  (c, m) ∈ codes ≫= entries_of env root mesh ↔
  c ∈ codes ∧ m ∈ listing env root c ∧ has_mesh env root mesh c m = true.
Proof.
  rewrite list_elem_of_bind. unfold entries_of. split.
  - intros (c' & Hin & Hc'). apply list_elem_of_fmap in Hin as (m' & ? & Hm').
    simplify_eq. apply list_elem_of_In, filter_In in Hm' as [Hm' ?].
    by rewrite <- list_elem_of_In in Hm'.
  - intros (Hc & Hm & Hx). exists c. split; [|done].
    apply list_elem_of_fmap. exists m. split; [done|].
    apply list_elem_of_In, filter_In. by rewrite <- list_elem_of_In.
Qed.

(** *** List subscripts *)

Lemma list_subscript_nonneg l idx :
  0 ≤ idx < Z.of_nat (length l) →
  ∃ x, l !! Z.to_nat idx = Some x ∧ list_subscript l idx = inr x.
Proof.
  intros Hi. unfold list_subscript.
  rewrite (bool_decide_eq_false_2 (idx < 0)) by lia.
  rewrite (bool_decide_eq_false_2 (idx < 0)) by lia.
  rewrite (bool_decide_eq_false_2 (_ ≤ idx)) by lia. simpl.
  destruct (lookup_lt_is_Some_2 l (Z.to_nat idx)) as [x Hx]; [lia|].
  exists x. by rewrite Hx.
Qed.

Lemma list_subscript_neg l k :
  1 ≤ k ≤ Z.of_nat (length l) →
  list_subscript l (- k) = list_subscript l (Z.of_nat (length l) - k).
Proof.
  intros Hk. unfold list_subscript.
  rewrite (bool_decide_eq_true_2 (- k < 0)) by lia.
  rewrite (bool_decide_eq_false_2 (_ - k < 0)) by lia.
  by replace (- k + Z.of_nat (length l)) with (Z.of_nat (length l) - k) by lia.
Qed.

Lemma list_subscript_out l idx :
  Z.of_nat (length l) ≤ idx ∨ idx < - Z.of_nat (length l) →
  list_subscript l idx = inl IndexError.
Proof.
  intros Hout. unfold list_subscript.
  destruct (bool_decide (idx < 0)) eqn:Hneg;
    [apply bool_decide_eq_true in Hneg|apply bool_decide_eq_false in Hneg].
  - by rewrite (bool_decide_eq_true_2 (idx + _ < 0)) by lia.
  - rewrite (bool_decide_eq_true_2 (_ ≤ idx)) by lia.
    by rewrite orb_true_r.
Qed.

(** *** Constructed datasets *)

Lemma init_lengths env root synsets version self w :
  init env root synsets version = (inr self, w) →
  length (synset_ids self) = length (model_ids self).
Proof.
  intros (_ & members & S & w1 & w2 & _ & _ & Hb & _)%init_inr.
  apply build_index_inr in Hb as (_ & H1 & H2 & _). simpl in *.
  by rewrite H1, H2, !length_fmap.
Qed.

Lemma index_of_lookup self (i : nat) c m :
  synset_ids self !! i = Some c → model_ids self !! i = Some m →
  index_of self !! i = Some (c, m).
Proof.
  intros Hc Hm. unfold index_of. rewrite lookup_zip_with, Hc. simpl.
  by rewrite Hm.
Qed.

Lemma init_index_fst_snd env root synsets version self w :
  init env root synsets version = (inr self, w) →
  synset_ids self = (index_of self).*1 ∧ model_ids self = (index_of self).*2.
Proof.
  intros (_ & members & S & w1 & w2 & _ & _ & Hb & _)%init_inr.
  apply build_index_inr in Hb as (_ & H1 & H2 & _). simpl in *.
  unfold index_of. rewrite H1, H2. by rewrite zip_fst_snd.
Qed.

(** Every category of the index is a key of the dictionary. *)
Lemma init_index_keys env root synsets version self w c m :
  init env root synsets version = (inr self, w) →
  (c, m) ∈ index_of self → dict_contains (synset_dict self) c = true.
Proof.
  intros (dict & S & w1 & -> & HS & _ & -> & _)%index_of_init.
  intros (Hc & _)%entries_of_fst.
  eapply resolve_keys; [done|]. by eapply set_order_elem_1.
Qed.

(** *** Indexed access on a constructed dataset *)

Lemma list_subscript_position l idx :
  - Z.of_nat (length l) ≤ idx < Z.of_nat (length l) →
  ∃ x, l !! position (Z.of_nat (length l)) idx = Some x ∧
       list_subscript l idx = inr x.
Proof.
  intros Hi. unfold position. case_bool_decide as Hneg.
  - assert (list_subscript l idx
              = list_subscript l (idx + Z.of_nat (length l))) as ->.
    { rewrite <- (Z.opp_involutive idx) at 1.
      rewrite list_subscript_neg by lia. f_equal. lia. }
    apply list_subscript_nonneg. lia.
  - apply list_subscript_nonneg. lia.
Qed.

Section Access_facts.

Context {Verts Faces VertsIdx : Type}.
Variable loader : Loader Verts Faces VertsIdx.
Variables (env : Env) (root : string) (synsets : option (list string)).
Variables (version : Z) (self : ShapeNetCore) (w : list string).
Hypothesis Hinit : init env root synsets version = (inr self, w).

Lemma getitem_within idx :
  - len self ≤ idx < len self →
  ∃ c m l,
    index_of self !! position (len self) idx = Some (c, m) ∧
    dict_get (synset_dict self) c = Some l ∧
    getitem loader self idx = fetch loader self c m l.
Proof.
  intros Hi. unfold len in *.
  pose proof (init_lengths _ _ _ _ _ _ Hinit) as Hlen.
  destruct (list_subscript_position (model_ids self) idx Hi) as (m & Hm & Hsm).
  rewrite <- Hlen in Hi.
  destruct (list_subscript_position (synset_ids self) idx Hi) as (c & Hc & Hsc).
  rewrite Hlen in Hc.
  pose proof (index_of_lookup _ _ _ _ Hc Hm) as Hcm.
  assert (dict_contains (synset_dict self) c = true) as Hk.
  { eapply init_index_keys; [exact Hinit|]. by eapply list_elem_of_lookup_2. }
  apply dict_contains_get in Hk as [l Hl].
  exists c, m, l. repeat split; try done.
  unfold getitem, fetch. rewrite Hsc, Hsm.
  destruct (load_obj loader _) as [msg|[v f]]; [done|]. by rewrite Hl.
Qed.

Lemma getitem_outside idx :
  len self ≤ idx ∨ idx < - len self →
  getitem loader self idx = inl IndexError.
Proof.
  intros Hout. unfold getitem, len in *.
  rewrite <- (init_lengths _ _ _ _ _ _ Hinit) in Hout.
  by rewrite list_subscript_out.
Qed.

Lemma fetch_not_index c m l : fetch loader self c m l ≠ inl IndexError.
Proof. unfold fetch. by destruct (load_obj loader _) as [?|[??]]. Qed.

Lemma fetch_not_key c m l k : fetch loader self c m l ≠ inl (KeyError k).
Proof. unfold fetch. by destruct (load_obj loader _) as [?|[??]]. Qed.

End Access_facts.

(** *** Two runs on the sample trees *)

Example scenario_incomplete_model :
  init Sample.env3 "root" None 1
  = (inr {| data_dir := "root"; model_dir := "model.obj";
            synset_dict := Sample.members_v1;
            synset_ids := ["02691156"]; model_ids := ["full"] |},
     [msg_no_mesh "bare" "02691156"]).
Proof. by vm_compute. Qed.

Example scenario_label_and_code :
  resolve Sample.env1 "root" Sample.members_v1
    (Some ["airplane"; "02958343"]) 1
  = (inr {[ "02691156"; "02958343" ]}, []).
Proof. by vm_compute. Qed.

(** The same tree with the set walked the other way round: the same
    entries, in the other order. *)
Example scenario_other_walk :
  init Sample.env1_rev "root" None 1
  = (inr {| data_dir := "root"; model_dir := "model.obj";
            synset_dict := Sample.members_v1;
            synset_ids := ["02691156"; "02958343"];
            model_ids := ["m1"; "c1"] |},
     [msg_no_mesh "m2" "02691156"]).
Proof. by vm_compute. Qed.

(** ** The claims *)

(** C1. On a dataset that was constructed successfully, for every index
    [idx] with [0 <= idx < N] the entries [synset_ids[idx]] and
    [model_ids[idx]] exist, the dictionary has a label for that synset, and
    [getitem idx] returns the record with exactly these three fields
    together with the loader's geometry.  The only way in which the access
    can fail is a failure of the mesh loader on the model's file, which is
    passed on. *)
Theorem getitem_record {Verts Faces VertsIdx}
    (loader : Loader Verts Faces VertsIdx) env root synsets version self w idx :
  init env root synsets version = (inr self, w) →
  0 ≤ idx < len self →
  ∃ c m l,
    synset_ids self !! Z.to_nat idx = Some c ∧
    model_ids self !! Z.to_nat idx = Some m ∧
    dict_get (synset_dict self) c = Some l ∧
    (∀ v f,
       load_obj loader (path_join (data_dir self) [c; m; model_dir self])
         = inr (v, f) →
       getitem loader self idx =
         inr {| synset_id := c; model_id := m; verts := v;
                faces := verts_idx loader f; label := l |}) ∧
    (∀ r, getitem loader self idx = inr r →
       synset_id r = c ∧ model_id r = m ∧ label r = l) ∧
    (∀ e, getitem loader self idx = inl e →
       ∃ msg, e = LoaderFailure msg ∧
         load_obj loader (path_join (data_dir self) [c; m; model_dir self])
           = inl msg).
Proof.
  intros Hinit Hi.
  destruct (getitem_within loader _ _ _ _ _ _ Hinit idx) as (c & m & l & Hcm & Hl & Hget);
    [lia|].
  unfold position in Hcm. rewrite bool_decide_eq_false_2 in Hcm by lia.
  unfold index_of in Hcm.
  apply lookup_zip_with_Some in Hcm as (c' & m' & Heq & Hc & Hm).
  injection Heq as <- <-.
  exists c, m, l. rewrite Hget. unfold fetch. split_and!; try done.
  - by intros v f ->.
  - intros r. destruct (load_obj loader _) as [?|[??]]; by intros ?; simplify_eq.
  - intros e. destruct (load_obj loader _) as [msg|[??]]; intros ?; simplify_eq.
    by exists msg.
Qed.

Lemma getitem_record_witness :
  ∃ c m l,
    synset_ids Sample.ds1 !! Z.to_nat 1 = Some c ∧
    model_ids Sample.ds1 !! Z.to_nat 1 = Some m ∧
    dict_get (synset_dict Sample.ds1) c = Some l ∧
    (∀ v f,
       load_obj Sample.loader1
         (path_join (data_dir Sample.ds1) [c; m; model_dir Sample.ds1])
         = inr (v, f) →
       getitem Sample.loader1 Sample.ds1 1 =
         inr {| synset_id := c; model_id := m; verts := v;
                faces := verts_idx Sample.loader1 f; label := l |}) ∧
    (∀ r, getitem Sample.loader1 Sample.ds1 1 = inr r →
       synset_id r = c ∧ model_id r = m ∧ label r = l) ∧
    (∀ e, getitem Sample.loader1 Sample.ds1 1 = inl e →
       ∃ msg, e = LoaderFailure msg ∧
         load_obj Sample.loader1
           (path_join (data_dir Sample.ds1) [c; m; model_dir Sample.ds1])
           = inl msg).
Proof.
  apply (getitem_record Sample.loader1 Sample.env1 "root" None 1 Sample.ds1
           [msg_no_mesh "m2" "02691156"] 1).
  - vm_compute. reflexivity.
  - unfold len. simpl. lia.
Defined.

(** C2. With [synsets] absent, a subdirectory of [data_dir] whose name is
    not a key of the dictionary makes the constructor raise [KeyError]: the
    warning's text looks the missing key up in the dictionary before
    [warnings.warn] is reached.  No warning is issued and no dataset is
    built, although the root directory is readable. *)
Theorem init_unknown_category_raises env root version members names c :
  version_ok version = true →
  read_json env (path_join (SYNSET_DICT_DIR env) [dict_file version])
    = Some members →
  listdir env root = Some names →
  c ∈ names →
  isdir env (path_join root [c]) = true →
  dict_contains (json_load members) c = false →
  ∃ k, k ∈ names ∧ isdir env (path_join root [k]) = true ∧
    dict_contains (json_load members) k = false ∧
    init env root None version = (inl (KeyError k), []).
Proof.
  intros Hv Hj Hl Hc Hd Hk.
  set (S := list_to_set (List.filter
    (λ synset, isdir env (path_join root [synset])) names) : gset string).
  assert (∀ k, k ∈ set_order env S ↔
    k ∈ names ∧ isdir env (path_join root [k]) = true) as HS.
  { intros k. unfold S. rewrite elem_of_set_order, elem_of_list_to_set.
    by rewrite list_elem_of_In, filter_In, <- list_elem_of_In. }
  destruct (for_each_check_known_raise root (json_load members) version
    (set_order env S) c) as (k & Hin & Hkc & Hraise); [by apply HS|done|].
  apply HS in Hin as [Hkn Hkd]. exists k. split_and!; try done.
  unfold init. rewrite Hv. simpl. rewrite (load_synset_dict_Some _ _ _ Hj).
  change (inr (json_load members), []) with (ret (json_load members)).
  rewrite bind_ret_l. unfold resolve, resolve_all, os_listdir. rewrite Hl.
  rewrite bind_ret_l. fold S. by rewrite Hraise.
Qed.

Lemma init_unknown_category_raises_witness :
  ∃ k, k ∈ ["02691156"; "extra"] ∧
    isdir Sample.env2 (path_join "root" [k]) = true ∧
    dict_contains (json_load Sample.members_v1) k = false ∧
    init Sample.env2 "root" None 1 = (inl (KeyError k), []).
Proof.
  apply (init_unknown_category_raises Sample.env2 "root" 1 Sample.members_v1
           ["02691156"; "extra"] "extra").
  - vm_compute. reflexivity.
  - vm_compute. reflexivity.
  - vm_compute. reflexivity.
  - apply list_elem_of_In. simpl. tauto.
  - vm_compute. reflexivity.
  - vm_compute. reflexivity.
Defined.

(** C9. After a construction that did not raise, with or without
    [synsets], every synset of the index is a key of the dictionary, and no
    subscript whatsoever makes [getitem] raise [KeyError]. *)
Theorem index_synsets_are_keys env root synsets version self w :
  init env root synsets version = (inr self, w) →
  (∀ c, c ∈ synset_ids self → dict_contains (synset_dict self) c = true) ∧
  (∀ Verts Faces VertsIdx (loader : Loader Verts Faces VertsIdx) idx key,
     getitem loader self idx ≠ inl (KeyError key)).
Proof.
  intros Hinit. split.
  - intros c Hc.
    destruct (init_index_fst_snd _ _ _ _ _ _ Hinit) as [H1 _].
    rewrite H1 in Hc. apply list_elem_of_fmap in Hc as ([c' m] & -> & Hcm).
    by eapply init_index_keys.
  - intros Verts Faces VertsIdx loader idx key.
    destruct (decide (- len self ≤ idx < len self)) as [Hin|Hout].
    + destruct (getitem_within loader _ _ _ _ _ _ Hinit idx Hin)
        as (c & m & l & _ & _ & ->). apply fetch_not_key.
    + rewrite (getitem_outside loader _ _ _ _ _ _ Hinit) by lia. done.
Qed.

Lemma index_synsets_are_keys_witness :
  (∀ c, c ∈ synset_ids Sample.ds1 →
     dict_contains (synset_dict Sample.ds1) c = true) ∧
  (∀ Verts Faces VertsIdx (loader : Loader Verts Faces VertsIdx) idx key,
     getitem loader Sample.ds1 idx ≠ inl (KeyError key)).
Proof.
  apply (index_synsets_are_keys Sample.env1 "root"
           (Some ["airplane"; "02958343"; "02691156"; "zzz"]) 1 Sample.ds1
           [msg_unresolved "zzz" "root"; msg_no_mesh "m2" "02691156"]).
  vm_compute. reflexivity.
Defined.

(** C5, as the code has it.  On a constructed dataset of size [N] the
    subscript raises [IndexError] exactly when [idx >= N] or [idx < -N]:
    the check is the one of the list subscript, which counts a negative
    index from the end.  So [getitem N] always raises, and [getitem (-1)]
    raises only on an empty dataset. *)
Theorem getitem_index_error {Verts Faces VertsIdx}
    (loader : Loader Verts Faces VertsIdx) env root synsets version self w :
  init env root synsets version = (inr self, w) →
  (∀ idx, getitem loader self idx = inl IndexError ↔
          len self ≤ idx ∨ idx < - len self) ∧
  getitem loader self (len self) = inl IndexError ∧
  (getitem loader self (-1) = inl IndexError ↔ len self = 0).
Proof.
  intros Hinit.
  assert (∀ idx, getitem loader self idx = inl IndexError ↔
                 len self ≤ idx ∨ idx < - len self) as Hiff.
  { intros idx. split.
    - intros Hget.
      destruct (decide (- len self ≤ idx < len self)) as [Hin|Hout]; [|lia].
      destruct (getitem_within loader _ _ _ _ _ _ Hinit idx Hin)
        as (c & m & l & _ & _ & Heq).
      rewrite Heq in Hget. by apply fetch_not_index in Hget.
    - by apply (getitem_outside loader _ _ _ _ _ _ Hinit). }
  split_and!; [done|apply Hiff; lia|].
  rewrite Hiff. unfold len. lia.
Qed.

Lemma getitem_index_error_witness :
  (∀ idx, getitem Sample.loader1 Sample.ds1 idx = inl IndexError ↔
          len Sample.ds1 ≤ idx ∨ idx < - len Sample.ds1) ∧
  getitem Sample.loader1 Sample.ds1 (len Sample.ds1) = inl IndexError ∧
  (getitem Sample.loader1 Sample.ds1 (-1) = inl IndexError ↔
   len Sample.ds1 = 0).
Proof.
  apply (getitem_index_error Sample.loader1 Sample.env1 "root" None 1
           Sample.ds1 [msg_no_mesh "m2" "02691156"]).
  vm_compute. reflexivity.
Defined.

(** C5, as the claim has it, fails: the sample tree gives a dataset of
    size 2 on which [getitem (-1)] returns the last record. *)
Lemma getitem_minus_one_returns :
  init Sample.env1 "root" None 1
    = (inr Sample.ds1, [msg_no_mesh "m2" "02691156"]) ∧
  len Sample.ds1 = 2 ∧
  getitem Sample.loader1 Sample.ds1 (-1)
    = inr {| synset_id := "02691156"; model_id := "m1";
             verts := "root/02691156/m1/model.obj"; faces := 26%nat;
             label := "airplane" |} ∧
  getitem Sample.loader1 Sample.ds1 (-1) ≠ inl IndexError.
Proof. split_and!; [by vm_compute..|by vm_compute]. Qed.

(** C10. On a constructed dataset of size [N], for [1 <= k <= N] the
    access [getitem (-k)] is the access [getitem (N - k)]: it raises
    neither [IndexError] nor [KeyError], and returns the record of entry
    [N - k] whenever the mesh loader returns on that entry's file. *)
Theorem getitem_negative {Verts Faces VertsIdx}
    (loader : Loader Verts Faces VertsIdx) env root synsets version self w k :
  init env root synsets version = (inr self, w) →
  1 ≤ k ≤ len self →
  getitem loader self (- k) = getitem loader self (len self - k) ∧
  ∃ c m l,
    synset_ids self !! Z.to_nat (len self - k) = Some c ∧
    model_ids self !! Z.to_nat (len self - k) = Some m ∧
    dict_get (synset_dict self) c = Some l ∧
    (∀ e, getitem loader self (- k) = inl e →
       ∃ msg, e = LoaderFailure msg ∧
         load_obj loader (path_join (data_dir self) [c; m; model_dir self])
           = inl msg) ∧
    (∀ v f,
       load_obj loader (path_join (data_dir self) [c; m; model_dir self])
         = inr (v, f) →
       getitem loader self (- k) =
         inr {| synset_id := c; model_id := m; verts := v;
                faces := verts_idx loader f; label := l |}).
Proof.
  intros Hinit Hk.
  destruct (getitem_within loader _ _ _ _ _ _ Hinit (- k))
    as (c & m & l & Hcm & Hl & Hneg); [lia|].
  destruct (getitem_within loader _ _ _ _ _ _ Hinit (len self - k))
    as (c' & m' & l' & Hcm' & Hl' & Hpos); [lia|].
  unfold position in Hcm, Hcm'.
  rewrite bool_decide_eq_true_2 in Hcm by lia.
  rewrite bool_decide_eq_false_2 in Hcm' by lia.
  replace (- k + len self) with (len self - k) in Hcm by lia.
  rewrite Hcm in Hcm'. injection Hcm' as <- <-.
  rewrite Hl in Hl'. injection Hl' as <-.
  split; [by rewrite Hneg, Hpos|].
  unfold index_of in Hcm.
  apply lookup_zip_with_Some in Hcm as (c' & m' & Heq & Hc & Hm).
  injection Heq as <- <-.
  exists c, m, l. rewrite Hneg. unfold fetch. split_and!; try done.
  - intros e. destruct (load_obj loader _) as [msg|[??]]; intros ?; simplify_eq.
    by exists msg.
  - by intros v f ->.
Qed.

Lemma getitem_negative_witness :
  getitem Sample.loader1 Sample.ds1 (- 2)
    = getitem Sample.loader1 Sample.ds1 (len Sample.ds1 - 2) ∧
  ∃ c m l,
    synset_ids Sample.ds1 !! Z.to_nat (len Sample.ds1 - 2) = Some c ∧
    model_ids Sample.ds1 !! Z.to_nat (len Sample.ds1 - 2) = Some m ∧
    dict_get (synset_dict Sample.ds1) c = Some l ∧
    (∀ e, getitem Sample.loader1 Sample.ds1 (- 2) = inl e →
       ∃ msg, e = LoaderFailure msg ∧
         load_obj Sample.loader1
           (path_join (data_dir Sample.ds1) [c; m; model_dir Sample.ds1])
           = inl msg) ∧
    (∀ v f,
       load_obj Sample.loader1
         (path_join (data_dir Sample.ds1) [c; m; model_dir Sample.ds1])
         = inr (v, f) →
       getitem Sample.loader1 Sample.ds1 (- 2) =
         inr {| synset_id := c; model_id := m; verts := v;
                faces := verts_idx Sample.loader1 f; label := l |}).
Proof.
  apply (getitem_negative Sample.loader1 Sample.env1 "root" None 1
           Sample.ds1 [msg_no_mesh "m2" "02691156"] 2).
  - vm_compute. reflexivity.
  - unfold len. simpl. lia.
Defined.

Lemma version_ok_cases version :
  version_ok version = true → version = 1 ∨ version = 2.
Proof.
  unfold version_ok. rewrite bool_decide_eq_true, !elem_of_cons, elem_of_nil.
  tauto.
Qed.

(** C7. On a constructed dataset, for every index [idx] with
    [0 <= idx < N] the file
    [<root>/<synset_ids[idx]>/<model_ids[idx]>/<mesh>] passed the existence
    test of the constructor, where [mesh] is [model.obj] for version 1 and
    [models/model_normalized.obj] for version 2; [getitem idx] hands
    exactly this path to the mesh loader. *)
Theorem indexed_mesh_exists {Verts Faces VertsIdx}
    (loader : Loader Verts Faces VertsIdx) env root synsets version self w idx :
  init env root synsets version = (inr self, w) →
  0 ≤ idx < len self →
  ∃ c m mesh,
    synset_ids self !! Z.to_nat idx = Some c ∧
    model_ids self !! Z.to_nat idx = Some m ∧
    (version = 1 ∧ mesh = "model.obj" ∨
     version = 2 ∧ mesh = "models/model_normalized.obj") ∧
    path_exists env (path_join root [c; m; mesh]) = true ∧
    ∃ l,
      getitem loader self idx =
      match load_obj loader (path_join root [c; m; mesh]) with
      | inl msg => inl (LoaderFailure msg)
      | inr (v, f) =>
          inr {| synset_id := c; model_id := m; verts := v;
                 faces := verts_idx loader f; label := l |}
      end.
Proof.
  intros Hinit Hi.
  destruct (getitem_within loader _ _ _ _ _ _ Hinit idx)
    as (c & m & l & Hcm & Hl & Hget); [lia|].
  unfold position in Hcm. rewrite bool_decide_eq_false_2 in Hcm by lia.
  pose proof (list_elem_of_lookup_2 _ _ _ Hcm) as Hin.
  unfold index_of in Hcm.
  apply lookup_zip_with_Some in Hcm as (c' & m' & Heq & Hc & Hm).
  injection Heq as <- <-.
  destruct (init_inr _ _ _ _ _ _ Hinit)
    as (Hv & members & S & w1 & w2 & _ & _ & _ & _ & Hroot & Hmesh & _).
  destruct (index_of_init _ _ _ _ _ _ Hinit)
    as (dict & S' & w1' & _ & _ & _ & Hidx & _).
  rewrite Hidx in Hin. apply entries_of_fst in Hin as (_ & _ & Hex).
  exists c, m, (mesh_of_version version). split_and!; try done.
  - unfold mesh_of_version.
    destruct (version_ok_cases _ Hv) as [-> | ->]; [by left|by right].
  - exists l. by rewrite Hget, <- Hroot, <- Hmesh.
Qed.

Lemma indexed_mesh_exists_witness :
  ∃ c m mesh,
    synset_ids Sample.ds1 !! Z.to_nat 0 = Some c ∧
    model_ids Sample.ds1 !! Z.to_nat 0 = Some m ∧
    ((1 : Z) = 1 ∧ mesh = "model.obj" ∨
     (1 : Z) = 2 ∧ mesh = "models/model_normalized.obj") ∧
    path_exists Sample.env1 (path_join "root" [c; m; mesh]) = true ∧
    ∃ l,
      getitem Sample.loader1 Sample.ds1 0 =
      match load_obj Sample.loader1 (path_join "root" [c; m; mesh]) with
      | inl msg => inl (LoaderFailure msg)
      | inr (v, f) =>
          inr {| synset_id := c; model_id := m; verts := v;
                 faces := verts_idx Sample.loader1 f; label := l |}
      end.
Proof.
  apply (indexed_mesh_exists Sample.loader1 Sample.env1 "root" None 1
           Sample.ds1 [msg_no_mesh "m2" "02691156"] 0).
  - vm_compute. reflexivity.
  - unfold len. simpl. lia.
Defined.

(** C3. After a successful construction, with [S] the resolved set of
    categories: a pair (code, model) is in the index exactly when [code] is
    in [S], [model] is an entry of the directory [<root>/<code>], and the
    file [<root>/<code>/<model>/<mesh>] exists; an entry whose mesh file is
    absent is left out and a warning that names the model and the category
    is issued; the index lists the pairs in the order of encounter (the
    categories in the order in which the set is walked, which visits every
    member of [S] once, and the models of a category in the order of its
    listing), and [len] is the number of pairs appended. *)
Theorem index_iff_mesh_exists env root synsets version self w :
  init env root synsets version = (inr self, w) →
  ∃ S w1,
    resolve env root (synset_dict self) synsets version = (inr S, w1) ∧
    (∀ c m, (c, m) ∈ index_of self ↔
       c ∈ S ∧
       (∃ models, listdir env (path_join root [c]) = Some models ∧ m ∈ models) ∧
       path_exists env (path_join root [c; m; model_dir self]) = true) ∧
    (∀ c m models,
       c ∈ S → listdir env (path_join root [c]) = Some models → m ∈ models →
       path_exists env (path_join root [c; m; model_dir self]) = false →
       msg_no_mesh m c ∈ w ∧ (c, m) ∉ index_of self) ∧
    set_order env S ≡ₚ elements S ∧
    index_of self = set_order env S ≫= entries_of env root (model_dir self) ∧
    synset_ids self = (index_of self).*1 ∧
    model_ids self = (index_of self).*2 ∧
    len self
      = Z.of_nat (length (set_order env S ≫= entries_of env root (model_dir self))).
Proof.
  intros Hinit.
  destruct (init_inr _ _ _ _ _ _ Hinit)
    as (_ & _ & _ & _ & _ & _ & _ & _ & _ & _ & Hmesh & _).
  destruct (index_of_init _ _ _ _ _ _ Hinit)
    as (dict & S & w1 & Hdict & HS & Hall & Hidx & Hw).
  destruct (init_index_fst_snd _ _ _ _ _ _ Hinit) as [H1 H2].
  rewrite Forall_forall in Hall.
  assert (∀ c m, m ∈ listing env root c ∧ c ∈ S ↔
    c ∈ S ∧ ∃ models, listdir env (path_join root [c]) = Some models
                      ∧ m ∈ models) as Hlist.
  { intros c m. unfold listing. split.
    - intros [Hm Hc]. split; [done|].
      destruct (Hall c) as [models Hmodels]; [by apply set_order_elem_2|].
      rewrite Hmodels in Hm. by exists models.
    - intros (Hc & models & Hmodels & Hm). by rewrite Hmodels. }
  assert (∀ c m, (c, m) ∈ index_of self ↔
     c ∈ S ∧
     (∃ models, listdir env (path_join root [c]) = Some models ∧ m ∈ models) ∧
     path_exists env (path_join root [c; m; model_dir self]) = true) as Hiff.
  { intros c m. rewrite Hidx, entries_of_fst, elem_of_set_order, Hmesh.
    unfold has_mesh. specialize (Hlist c m). tauto. }
  exists S, w1. rewrite Hdict. split_and!; try done.
  - intros c m models Hc Hmodels Hm Hex. split.
    + rewrite Hw, elem_of_app. right. apply list_elem_of_bind. exists c.
      split; [|by apply set_order_elem_2].
      unfold mesh_warnings. apply list_elem_of_fmap. exists m. split; [done|].
      apply list_elem_of_In, filter_In. rewrite <- list_elem_of_In.
      unfold listing, has_mesh. rewrite Hmodels, <- Hmesh, Hex. done.
    + rewrite Hiff. intros (_ & _ & Hex'). congruence.
  - apply set_order_perm.
  - by rewrite Hidx, Hmesh.
  - unfold len. rewrite H2, length_fmap, Hidx, Hmesh. done.
Qed.

Lemma index_iff_mesh_exists_witness :
  ∃ S w1,
    resolve Sample.env1_rev "root" (synset_dict Sample.ds1_rev) None 1 = (inr S, w1) ∧
    (∀ c m, (c, m) ∈ index_of Sample.ds1_rev ↔
       c ∈ S ∧
       (∃ models, listdir Sample.env1_rev (path_join "root" [c]) = Some models
                  ∧ m ∈ models) ∧
       path_exists Sample.env1_rev (path_join "root" [c; m; model_dir Sample.ds1_rev])
         = true) ∧
    (∀ c m models,
       c ∈ S → listdir Sample.env1_rev (path_join "root" [c]) = Some models →
       m ∈ models →
       path_exists Sample.env1_rev (path_join "root" [c; m; model_dir Sample.ds1_rev])
         = false →
       msg_no_mesh m c ∈ [msg_no_mesh "m2" "02691156"] ∧
       (c, m) ∉ index_of Sample.ds1_rev) ∧
    set_order Sample.env1_rev S ≡ₚ elements S ∧
    index_of Sample.ds1_rev
      = set_order Sample.env1_rev S
          ≫= entries_of Sample.env1_rev "root" (model_dir Sample.ds1_rev) ∧
    synset_ids Sample.ds1_rev = (index_of Sample.ds1_rev).*1 ∧
    model_ids Sample.ds1_rev = (index_of Sample.ds1_rev).*2 ∧
    len Sample.ds1_rev
      = Z.of_nat (length (set_order Sample.env1_rev S ≫=
                            entries_of Sample.env1_rev "root" (model_dir Sample.ds1_rev))).
Proof.
  apply (index_iff_mesh_exists Sample.env1_rev "root" None 1 Sample.ds1_rev
           [msg_no_mesh "m2" "02691156"]).
  vm_compute. reflexivity.
Defined.

Lemma resolved_code_spec env root dict synset c :
  resolved_code env root dict synset = Some c ↔
  (dict_contains dict synset = true ∧
   isdir env (path_join root [synset]) = true ∧ c = synset ∨
   ¬ (dict_contains dict synset = true ∧
      isdir env (path_join root [synset]) = true) ∧
   dict_get (invert_dict dict) synset = Some c ∧
   isdir env (path_join root [c]) = true).
Proof.
  unfold resolved_code.
  destruct (dict_contains dict synset && isdir env (path_join root [synset]))
    eqn:Hk.
  - apply andb_true_iff in Hk as [H1 H2]. split.
    + intros ?; simplify_eq. by left.
    + intros [(_ & _ & ->)|(Hn & _)]; [done|]. by destruct Hn.
  - assert (¬ (dict_contains dict synset = true ∧
               isdir env (path_join root [synset]) = true)) as Hn.
    { intros [H1 H2]. by rewrite H1, H2 in Hk. }
    split.
    + intros Hr. right. split; [done|].
      destruct (dict_get (invert_dict dict) synset) as [o|]; [|done].
      destruct (isdir env (path_join root [o])) eqn:Ho; [|done].
      by simplify_eq.
    + intros [(H1 & H2 & _)|(_ & Hg & Hd)]; [by destruct Hn|].
      by rewrite Hg, Hd.
Qed.

(** C4. With [synsets] given, an identifier that is a key of the
    dictionary and whose directory [join(root, identifier)] exists is added
    as it is; otherwise an identifier that is a key of the inverse
    dictionary (a label) and whose mapped code has a directory adds the
    mapped code; otherwise the warning that names the identifier and the
    root is issued and the set is left as it was.  The loop over the
    requested identifiers never raises: the resolved set holds exactly the
    codes accepted for some identifier, and the warnings are those of the
    discarded identifiers, in the order of the request. *)
Theorem resolve_three_way env root dict synsets :
  (∀ synset S,
     (dict_contains dict synset = true ∧
      isdir env (path_join root [synset]) = true →
      resolve_synset env root dict (invert_dict dict) synset S
        = (inr ({[ synset ]} ∪ S), [])) ∧
     (∀ offset,
        ¬ (dict_contains dict synset = true ∧
           isdir env (path_join root [synset]) = true) →
        dict_get (invert_dict dict) synset = Some offset →
        isdir env (path_join root [offset]) = true →
        resolve_synset env root dict (invert_dict dict) synset S
          = (inr ({[ offset ]} ∪ S), [])) ∧
     (¬ (dict_contains dict synset = true ∧
         isdir env (path_join root [synset]) = true) →
      ¬ (∃ offset, dict_get (invert_dict dict) synset = Some offset ∧
                   isdir env (path_join root [offset]) = true) →
      resolve_synset env root dict (invert_dict dict) synset S
        = (inr S, [msg_unresolved synset root]))) ∧
  ∃ S w,
    (∀ version, resolve env root dict (Some synsets) version = (inr S, w)) ∧
    (∀ c, c ∈ S ↔ ∃ synset, synset ∈ synsets ∧
        (dict_contains dict synset = true ∧
         isdir env (path_join root [synset]) = true ∧ c = synset ∨
         ¬ (dict_contains dict synset = true ∧
            isdir env (path_join root [synset]) = true) ∧
         dict_get (invert_dict dict) synset = Some c ∧
         isdir env (path_join root [c]) = true)) ∧
    (∀ msg, msg ∈ w ↔ ∃ synset, synset ∈ synsets ∧
        ¬ (dict_contains dict synset = true ∧
           isdir env (path_join root [synset]) = true) ∧
        ¬ (∃ offset, dict_get (invert_dict dict) synset = Some offset ∧
                     isdir env (path_join root [offset]) = true) ∧
        msg = msg_unresolved synset root).
Proof.
  pose proof (resolved_code_spec env root dict) as Hcode.
  split.
  - intros synset S. rewrite resolve_synset_eq. split_and!.
    + intros [H1 H2].
      by rewrite (proj2 (Hcode synset synset)) by (left; done).
    + intros offset Hn Ho Hd.
      by rewrite (proj2 (Hcode synset offset)) by (right; done).
    + intros Hn Hinv.
      destruct (resolved_code env root dict synset) as [c|] eqn:Hr; [|done].
      apply Hcode in Hr as [(? & ? & _)|(_ & ? & ?)]; [by destruct Hn|].
      destruct Hinv. by exists c.
  - eexists _, _. simpl. split_and!.
    + intros _. apply resolve_given_eq.
    + intros c. rewrite elem_of_list_to_set, list_elem_of_omap.
      split; intros (s & Hs & Hr); exists s; (split; [done|]); by apply Hcode.
    + intros msg. rewrite list_elem_of_omap. unfold resolution_warning.
      split.
      * intros (s & Hs & Hr). exists s. split; [done|].
        destruct (resolved_code env root dict s) as [c|] eqn:Hc; [done|].
        simplify_eq. split_and!; [| |done].
        -- intros [H1 H2].
           by rewrite (proj2 (Hcode s s)) in Hc by (left; done).
        -- intros (o & H1 & H2).
           destruct (decide (dict_contains dict s = true ∧
                             isdir env (path_join root [s]) = true)) as [[??]|Hn].
           ++ by rewrite (proj2 (Hcode s s)) in Hc by (left; done).
           ++ by rewrite (proj2 (Hcode s o)) in Hc by (right; done).
      * intros (s & Hs & Hn & Hinv & ->). exists s. split; [done|].
        destruct (resolved_code env root dict s) as [c|] eqn:Hc; [|done].
        apply Hcode in Hc as [(? & ? & _)|(_ & ? & ?)]; [by destruct Hn|].
        destruct Hinv. by exists c.
Qed.

Lemma resolve_three_way_witness :
  ∃ S w,
    (∀ version,
       resolve Sample.env1 "root" Sample.members_v1
         (Some ["airplane"; "02958343"; "boat"; "zzz"]) version = (inr S, w)) ∧
    S = {[ "02691156"; "02958343" ]} ∧
    w = [msg_unresolved "boat" "root"; msg_unresolved "zzz" "root"].
Proof.
  destruct (resolve_three_way Sample.env1 "root" Sample.members_v1
              ["airplane"; "02958343"; "boat"; "zzz"])
    as (_ & S & w & Hres & _).
  exists S, w. split; [exact Hres|].
  specialize (Hres 1). vm_compute in Hres.
  injection Hres as <- <-. split; [|reflexivity].
  vm_compute. reflexivity.
Defined.

(** C6. When the two bundled dictionaries can be read, the dictionary
    load of the constructor returns for version 1 and for version 2, and the
    constructor goes on with the loaded dictionary.  For every other version
    the constructor raises [ValueError], whatever the environment: nothing
    of the file system or of the dictionaries takes part in the result,
    and no warning has been issued. *)
Theorem version_gate :
  (∀ env version m1 m2,
     read_json env
       (path_join (SYNSET_DICT_DIR env) ["shapenet_synset_dict_v1.json"])
       = Some m1 →
     read_json env
       (path_join (SYNSET_DICT_DIR env) ["shapenet_synset_dict_v2.json"])
       = Some m2 →
     version = 1 ∨ version = 2 →
     let dict := json_load (if bool_decide (version = 1) then m1 else m2) in
     load_synset_dict env version = (inr dict, []) ∧
     ∀ root synsets,
       init env root synsets version =
       (do synset_set <- resolve env root dict synsets version;
        do ids <- build_index env root (mesh_of_version version) synset_set;
        ret {| data_dir := root; model_dir := mesh_of_version version;
               synset_dict := dict; synset_ids := ids.1;
               model_ids := ids.2 |})) ∧
  (∀ env root synsets version,
     version ≠ 1 → version ≠ 2 →
     init env root synsets version
       = (inl (ValueError "Version number must be either 1 or 2."), [])).
Proof.
  split.
  - intros env version m1 m2 H1 H2 Hv dict.
    assert (load_synset_dict env version = (inr dict, [])) as Hload.
    { unfold dict. destruct Hv as [-> | ->].
      + exact (load_synset_dict_Some env 1 m1 H1).
      + exact (load_synset_dict_Some env 2 m2 H2). }
    split; [done|]. intros root synsets. unfold init.
    assert (version_ok version = true) as ->.
    { by destruct Hv as [-> | ->]. }
    simpl. rewrite Hload. change (inr dict, []) with (ret (A:=pydict) dict).
    by rewrite bind_ret_l.
  - intros env root synsets version H1 H2. unfold init.
    assert (version_ok version = false) as ->; [|done].
    unfold version_ok. apply bool_decide_eq_false.
    rewrite !elem_of_cons, elem_of_nil. tauto.
Qed.

Lemma version_gate_witness :
  (load_synset_dict Sample.env1 2 = (inr (json_load Sample.members_v2), []) ∧
   ∀ root synsets,
     init Sample.env1 root synsets 2 =
     (do synset_set <-
        resolve Sample.env1 root (json_load Sample.members_v2) synsets 2;
      do ids <- build_index Sample.env1 root (mesh_of_version 2) synset_set;
      ret {| data_dir := root; model_dir := mesh_of_version 2;
             synset_dict := json_load Sample.members_v2;
             synset_ids := ids.1; model_ids := ids.2 |})) ∧
  init Sample.env1 "root" None 3
    = (inl (ValueError "Version number must be either 1 or 2."), []).
Proof.
  split.
  - apply (proj1 version_gate Sample.env1 2 Sample.members_v1 Sample.members_v2).
    + vm_compute. reflexivity.
    + vm_compute. reflexivity.
    + right. reflexivity.
  - apply (proj2 version_gate Sample.env1 "root" None 3); lia.
Defined.

(** *** Requests by code and by label *)

Lemma resolved_code_canonical env root dict s c :
  canonical_code dict s = Some c →
  isdir env (path_join root [c]) = true →
  resolved_code env root dict s = Some c.
Proof.
  unfold canonical_code, resolved_code.
  destruct (dict_contains dict s); simpl.
  - intros ? Hd; simplify_eq. by rewrite Hd.
  - intros -> Hd. by rewrite Hd.
Qed.

Lemma omap_resolved_canonical env root dict synsets :
  (∀ s, s ∈ synsets →
     ∃ c, canonical_code dict s = Some c ∧
          isdir env (path_join root [c]) = true) →
  omap (resolved_code env root dict) synsets
    = omap (canonical_code dict) synsets ∧
  omap (resolution_warning env root dict) synsets = [].
Proof.
  induction synsets as [|s synsets IH]; intros Hvalid; [done|].
  destruct (Hvalid s) as (c & Hc & Hd); [by left|].
  destruct IH as [IH1 IH2]; [by intros s' Hs'; apply Hvalid; right|].
  pose proof (resolved_code_canonical _ _ _ _ _ Hc Hd) as Hr.
  assert (resolution_warning env root dict s = None) as Hw.
  { unfold resolution_warning. by rewrite Hr. }
  csimpl. rewrite Hr, Hc, Hw. csimpl. by rewrite IH1, IH2.
Qed.

Lemma filter_entries_same env root mesh c :
  List.filter (λ e : string * string, bool_decide (e.1 = c))
    (entries_of env root mesh c) = entries_of env root mesh c.
Proof.
  unfold entries_of.
  induction (List.filter (has_mesh env root mesh c) (listing env root c))
    as [|m l IH]; [done|].
  rewrite fmap_cons. cbn [List.filter fst].
  rewrite bool_decide_eq_true_2 by done. by rewrite IH.
Qed.

Lemma filter_entries_other env root mesh c c' :
  c' ≠ c →
  List.filter (λ e : string * string, bool_decide (e.1 = c))
    (entries_of env root mesh c') = [].
Proof.
  intros Hne. unfold entries_of.
  induction (List.filter (has_mesh env root mesh c') (listing env root c'))
    as [|m l IH]; [done|].
  rewrite fmap_cons. cbn [List.filter fst].
  by rewrite bool_decide_eq_false_2 by done.
Qed.

Lemma filter_entries_absent env root mesh codes c :
  c ∉ codes →
  List.filter (λ e : string * string, bool_decide (e.1 = c))
    (codes ≫= entries_of env root mesh) = [].
Proof.
  induction codes as [|c' codes IH]; [done|].
  rewrite not_elem_of_cons. intros [Hne Hnin].
  rewrite bind_cons, List.filter_app, IH by done.
  by rewrite filter_entries_other.
Qed.

Lemma filter_entries_of env root mesh codes c :
  NoDup codes → c ∈ codes →
  List.filter (λ e : string * string, bool_decide (e.1 = c))
    (codes ≫= entries_of env root mesh) = entries_of env root mesh c.
Proof.
  induction 1 as [|c' codes Hnin Hnd IH]; [by intros ?%elem_of_nil|].
  rewrite bind_cons, List.filter_app.
  destruct (decide (c' = c)) as [->|Hne].
  - intros _. rewrite filter_entries_same, filter_entries_absent by done.
    by rewrite app_nil_r.
  - rewrite elem_of_cons. intros [?|Hin]; [congruence|].
    by rewrite filter_entries_other, IH.
Qed.

(** C8. When every requested identifier is a code of the dictionary or
    a label of it, and the directory of its canonical code exists, the
    resolved set is the set of the canonical codes and no identifier is
    warned about.  A code is in the set once, however many identifiers
    lead to it, and the entries of the index with that code are the models
    of its directory that have a mesh file, each as often as the directory
    lists it.  The index and the warnings follow the order in which the
    set is walked, which visits every code of the set once. *)
Theorem mixed_request_union env root version synsets self w :
  init env root (Some synsets) version = (inr self, w) →
  (∀ s, s ∈ synsets →
     ∃ c, canonical_code (synset_dict self) s = Some c ∧
          isdir env (path_join root [c]) = true) →
  let S : gset string :=
    list_to_set (omap (canonical_code (synset_dict self)) synsets) in
  resolve env root (synset_dict self) (Some synsets) version = (inr S, []) ∧
  (∀ c, c ∈ S ↔
     ∃ s, s ∈ synsets ∧ canonical_code (synset_dict self) s = Some c) ∧
  NoDup (elements S) ∧
  set_order env S ≡ₚ elements S ∧
  index_of self = set_order env S ≫= entries_of env root (model_dir self) ∧
  (∀ c, c ∈ S →
     List.filter (λ e : string * string, bool_decide (e.1 = c)) (index_of self)
       = entries_of env root (model_dir self) c) ∧
  w = set_order env S ≫= mesh_warnings env root (model_dir self).
Proof.
  intros Hinit Hvalid S.
  destruct (init_inr _ _ _ _ _ _ Hinit)
    as (_ & _ & _ & _ & _ & _ & _ & _ & _ & _ & Hmesh & _).
  destruct (index_of_init _ _ _ _ _ _ Hinit)
    as (dict & S' & w1 & Hdict & HS & _ & Hidx & Hw).
  subst dict. simpl in HS. rewrite resolve_given_eq in HS.
  destruct (omap_resolved_canonical env root _ _ Hvalid) as [Hcodes Hwarn].
  rewrite Hcodes, Hwarn in HS. injection HS as <- <-. fold S in Hidx, Hw.
  rewrite Hmesh. split_and!; try done.
  - simpl. rewrite resolve_given_eq. by rewrite Hcodes, Hwarn.
  - intros c. unfold S. by rewrite elem_of_list_to_set, list_elem_of_omap.
  - apply NoDup_elements.
  - apply set_order_perm.
  - intros c Hc. rewrite Hidx.
    apply filter_entries_of; [apply NoDup_set_order|by apply set_order_elem_2].
Qed.

Lemma mixed_request_union_witness :
  let synsets := ["airplane"; "02958343"; "02691156"; "car"] in
  let S : gset string :=
    list_to_set (omap (canonical_code (synset_dict Sample.ds1)) synsets) in
  resolve Sample.env1 "root" (synset_dict Sample.ds1) (Some synsets) 1
    = (inr S, []) ∧
  (∀ c, c ∈ S ↔
     ∃ s, s ∈ synsets ∧ canonical_code (synset_dict Sample.ds1) s = Some c) ∧
  NoDup (elements S) ∧
  set_order Sample.env1 S ≡ₚ elements S ∧
  index_of Sample.ds1
    = set_order Sample.env1 S
        ≫= entries_of Sample.env1 "root" (model_dir Sample.ds1) ∧
  (∀ c, c ∈ S →
     List.filter (λ e : string * string, bool_decide (e.1 = c))
       (index_of Sample.ds1)
       = entries_of Sample.env1 "root" (model_dir Sample.ds1) c) ∧
  [msg_no_mesh "m2" "02691156"]
    = set_order Sample.env1 S
        ≫= mesh_warnings Sample.env1 "root" (model_dir Sample.ds1).
Proof.
  apply (mixed_request_union Sample.env1 "root" 1
           ["airplane"; "02958343"; "02691156"; "car"] Sample.ds1
           [msg_no_mesh "m2" "02691156"]).
  - vm_compute. reflexivity.
  - intros s Hs. apply list_elem_of_In in Hs. simpl in Hs.
    destruct Hs as [<-|[<-|[<-|[<-|[]]]]].
    + exists "02691156". split; vm_compute; reflexivity.
    + exists "02958343". split; vm_compute; reflexivity.
    + exists "02691156". split; vm_compute; reflexivity.
    + exists "02958343". split; vm_compute; reflexivity.
Defined.

(** ** Further properties of the constructor *)

(** *** How the constructor can end *)

Lemma for_each_check_known_ok root dict version codes :
  Forall (λ c, dict_contains dict c = true) codes →
  for_each codes (check_known root dict version) tt = (inr tt, []).
Proof.
  induction 1 as [|c codes Hc _ IH]; simpl; [done|].
  rewrite check_known_eq, Hc. simpl. by rewrite IH.
Qed.

Lemma resolve_all_cases env root dict version :
  match listdir env root with
  | None => resolve_all env root dict version = (inl (OSError root), [])
  | Some names =>
      let S : gset string :=
        list_to_set
          (List.filter (λ synset, isdir env (path_join root [synset])) names) in
      (∀ c, c ∈ S → dict_contains dict c = true) ∧
      resolve_all env root dict version = (inr S, []) ∨
      ∃ k, k ∈ S ∧ dict_contains dict k = false ∧
           resolve_all env root dict version = (inl (KeyError k), [])
  end.
Proof.
  unfold resolve_all, os_listdir.
  destruct (listdir env root) as [names|]; [|done].
  cbv zeta. rewrite bind_ret_l. set (S := list_to_set _ : gset string).
  destruct (decide (Forall (λ c, dict_contains dict c = true) (set_order env S)))
    as [Hall|Hex].
  - left. split.
    + intros c Hc. rewrite Forall_forall in Hall. apply Hall.
      by apply set_order_elem_2.
    + by rewrite (for_each_check_known_ok _ _ _ _ Hall).
  - right. apply not_Forall_Exists, Exists_exists in Hex as (c & Hc & Hn);
      [|apply _].
    apply not_true_is_false in Hn.
    destruct (for_each_check_known_raise root dict version _ _ Hc Hn)
      as (k & Hk & Hkn & Heq).
    exists k. split; [by eapply set_order_elem_1|]. split; [done|].
    by rewrite Heq.
Qed.

Lemma for_each_index_synset_cases env root mesh codes ids :
  Forall (λ c, is_Some (listdir env (path_join root [c]))) codes ∨
  ∃ codes1 c codes2,
    codes = codes1 ++ c :: codes2 ∧
    Forall (λ c, is_Some (listdir env (path_join root [c]))) codes1 ∧
    listdir env (path_join root [c]) = None ∧
    for_each codes (index_synset env root mesh) ids
      = (inl (OSError (path_join root [c])),
         codes1 ≫= mesh_warnings env root mesh).
Proof.
  revert ids. induction codes as [|c codes IH]; intros ids; [by left|].
  destruct (listdir env (path_join root [c])) as [models|] eqn:Hl.
  - destruct (IH (ids.1 ++ (entries_of env root mesh c).*1,
                  ids.2 ++ (entries_of env root mesh c).*2))
      as [Hall|(codes1 & c' & codes2 & -> & Hall & Hnone & Heq)].
    + left. constructor; [by rewrite Hl|done].
    + right. exists (c :: codes1), c', codes2. split_and!; try done.
      * constructor; [by rewrite Hl|done].
      * simpl. rewrite index_synset_eq by (by rewrite Hl). simpl.
        by rewrite Heq.
  - right. exists [], c, codes. split_and!; try done.
    simpl. by rewrite index_synset_raise.
Qed.

Lemma resolve_isdir env root dict synsets version S w :
  resolve env root dict synsets version = (inr S, w) →
  ∀ c, c ∈ S → isdir env (path_join root [c]) = true.
Proof.
  destruct synsets as [l|]; simpl.
  - rewrite resolve_given_eq. intros ?; simplify_eq. intros c Hc.
    apply elem_of_list_to_set, list_elem_of_omap in Hc as (s & _ & Hs).
    by eapply resolved_code_isdir.
  - intros (names & _ & -> & _)%resolve_all_inr. intros c Hc.
    apply elem_of_list_to_set, list_elem_of_In, filter_In in Hc. tauto.
Qed.

Lemma version_ok_true version :
  version = 1 ∨ version = 2 → version_ok version = true.
Proof. by intros [-> | ->]. Qed.


Lemma init_unfold env root synsets version members :
  version_ok version = true →
  read_json env (path_join (SYNSET_DICT_DIR env) [dict_file version])
    = Some members →
  init env root synsets version =
  (do synset_set <- resolve env root (json_load members) synsets version;
   do ids <- build_index env root (mesh_of_version version) synset_set;
   ret {| data_dir := root; model_dir := mesh_of_version version;
          synset_dict := json_load members; synset_ids := ids.1;
          model_ids := ids.2 |}).
Proof.
  intros Hv Hj. unfold init. rewrite Hv. simpl.
  rewrite (load_synset_dict_Some _ _ _ Hj).
  change (inr (json_load members), []) with (ret (json_load members)).
  by rewrite bind_ret_l.
Qed.

Lemma init_after_resolve env root synsets version members S w1 :
  version_ok version = true →
  read_json env (path_join (SYNSET_DICT_DIR env) [dict_file version])
    = Some members →
  resolve env root (json_load members) synsets version = (inr S, w1) →
  Forall (λ c, is_Some (listdir env (path_join root [c]))) (set_order env S) →
  init env root synsets version =
  (inr {| data_dir := root; model_dir := mesh_of_version version;
          synset_dict := json_load members;
          synset_ids :=
            (set_order env S ≫= entries_of env root (mesh_of_version version)).*1;
          model_ids :=
            (set_order env S ≫= entries_of env root (mesh_of_version version)).*2 |},
   w1 ++ (set_order env S ≫= mesh_warnings env root (mesh_of_version version))).
Proof.
  intros Hv Hj HS Hall. rewrite (init_unfold _ _ _ _ _ Hv Hj), HS.
  unfold build_index. simpl.
  rewrite (for_each_index_synset _ _ _ _ _ Hall). simpl.
  by rewrite app_nil_r.
Qed.



(** X2. With [synsets] given, a supported version and a readable
    dictionary, the constructor returns a dataset exactly when the
    directory of every accepted code can be listed.  The root itself is
    never listed, and an identifier that is not accepted cannot make the
    constructor raise. *)
Theorem init_given_returns env root synsets version members :
  version = 1 ∨ version = 2 →
  read_json env (path_join (SYNSET_DICT_DIR env) [dict_file version])
    = Some members →
  (∃ self w, init env root (Some synsets) version = (inr self, w)) ↔
  (∀ s c, s ∈ synsets →
     resolved_code env root (json_load members) s = Some c →
     is_Some (listdir env (path_join root [c]))).
Proof.
  intros Hv%version_ok_true Hj.
  pose proof (resolve_given_eq env root (json_load members) synsets) as HS.
  split.
  - intros (self & w & Hinit) s c Hs Hc.
    destruct (index_of_init _ _ _ _ _ _ Hinit)
      as (dict & S & w1 & Hd & HS' & Hall & _).
    destruct (init_inr _ _ _ _ _ _ Hinit)
      as (_ & members' & _ & _ & _ & Hj' & _ & _ & _ & _ & _ & Hd').
    rewrite Hj in Hj'. simplify_eq. simpl in HS'. rewrite Hd' in HS'.
    rewrite HS in HS'. simplify_eq.
    rewrite Forall_forall in Hall. apply Hall.
    apply set_order_elem_2, elem_of_list_to_set, list_elem_of_omap. eauto.
  - intros Hall. eexists _, _.
    apply (init_after_resolve _ _ (Some synsets) _ _ _ _ Hv Hj HS).
    apply Forall_forall. intros c Hc.
    apply set_order_elem_1, elem_of_list_to_set, list_elem_of_omap in Hc
      as (s & Hs & Hr). eauto.
Qed.

Lemma init_given_returns_witness :
  (∃ self w,
     init Sample.env1 "root" (Some ["airplane"; "zzz"]) 1 = (inr self, w)) ↔
  (∀ s c, s ∈ ["airplane"; "zzz"] →
     resolved_code Sample.env1 "root" (json_load Sample.members_v1) s = Some c →
     is_Some (listdir Sample.env1 (path_join "root" [c]))).
Proof.
  apply (init_given_returns Sample.env1 "root" ["airplane"; "zzz"] 1
           Sample.members_v1).
  - left. reflexivity.
  - vm_compute. reflexivity.
Defined.

(** X3. Without [synsets], with a supported version and a readable
    dictionary, the constructor returns a dataset exactly when the root can
    be listed and every entry of the root that is a directory is a key of
    the dictionary and can itself be listed. *)
Theorem init_all_returns env root version members :
  version = 1 ∨ version = 2 →
  read_json env (path_join (SYNSET_DICT_DIR env) [dict_file version])
    = Some members →
  (∃ self w, init env root None version = (inr self, w)) ↔
  (∃ names, listdir env root = Some names ∧
     ∀ c, c ∈ names → isdir env (path_join root [c]) = true →
       dict_contains (json_load members) c = true ∧
       is_Some (listdir env (path_join root [c]))).
Proof.
  intros Hv%version_ok_true Hj. split.
  - intros (self & w & Hinit).
    destruct (index_of_init _ _ _ _ _ _ Hinit)
      as (dict & S & w1 & Hd & HS & Hall & _).
    destruct (init_inr _ _ _ _ _ _ Hinit)
      as (_ & members' & _ & _ & _ & Hj' & _ & _ & _ & _ & _ & Hd').
    rewrite Hj in Hj'. simplify_eq. simpl in HS. rewrite Hd' in HS.
    apply resolve_all_inr in HS as (names & Hl & -> & _ & Hkeys).
    exists names. split; [done|]. intros c Hc Hdir.
    assert (c ∈ (list_to_set (List.filter
      (λ synset, isdir env (path_join root [synset])) names) : gset string))
      as HcS.
    { apply elem_of_list_to_set, list_elem_of_In, filter_In.
      by rewrite <- list_elem_of_In. }
    split; [by apply Hkeys|].
    rewrite Forall_forall in Hall. apply Hall. by apply set_order_elem_2.
  - intros (names & Hl & Hnames).
    pose proof (resolve_all_cases env root (json_load members) version) as Hc.
    rewrite Hl in Hc. cbv zeta in Hc.
    assert (∀ c, c ∈ (list_to_set (List.filter
      (λ synset, isdir env (path_join root [synset])) names) : gset string) →
      c ∈ names ∧ isdir env (path_join root [c]) = true) as HS.
    { intros c Hc'.
      apply elem_of_list_to_set, list_elem_of_In, filter_In in Hc'.
      by rewrite <- list_elem_of_In in Hc'. }
    destruct Hc as [[_ Hres]|(k & Hk & Hkn & _)].
    + eexists _, _.
      apply (init_after_resolve _ _ None _ _ _ _ Hv Hj Hres).
      apply Forall_forall. intros c Hc%set_order_elem_1%HS.
      destruct Hc as [Hc Hdir]. by apply Hnames.
    + apply HS in Hk as [Hk Hdir]. destruct (Hnames k Hk Hdir) as [Hkey _].
      congruence.
Qed.

Lemma init_all_returns_witness :
  (∃ self w, init Sample.env1 "root" None 1 = (inr self, w)) ↔
  (∃ names, listdir Sample.env1 "root" = Some names ∧
     ∀ c, c ∈ names → isdir Sample.env1 (path_join "root" [c]) = true →
       dict_contains (json_load Sample.members_v1) c = true ∧
       is_Some (listdir Sample.env1 (path_join "root" [c]))).
Proof.
  apply (init_all_returns Sample.env1 "root" 1 Sample.members_v1).
  - left. reflexivity.
  - vm_compute. reflexivity.
Defined.

(** *** The warnings *)

Lemma mesh_warnings_elem env root mesh codes msg :
  msg ∈ codes ≫= mesh_warnings env root mesh →
  ∃ c m models,
    c ∈ codes ∧ listdir env (path_join root [c]) = Some models ∧ m ∈ models ∧
    path_exists env (path_join root [c; m; mesh]) = false ∧
    msg = msg_no_mesh m c.
Proof.
  intros (c & Hmsg & Hc)%list_elem_of_bind. unfold mesh_warnings in Hmsg.
  apply list_elem_of_fmap in Hmsg as (m & -> & Hm).
  apply list_elem_of_In, filter_In in Hm as [Hm Hex].
  rewrite <- list_elem_of_In in Hm. unfold listing in Hm.
  destruct (listdir env (path_join root [c])) as [models|] eqn:Hl;
    [|by apply elem_of_nil in Hm].
  exists c, m, models. split_and!; try done.
  unfold has_mesh in Hex. by apply negb_true_iff in Hex.
Qed.

Lemma resolution_warning_elem env root dict (synsets : list string) msg :
  msg ∈ omap (resolution_warning env root dict) synsets →
  ∃ s, s ∈ synsets ∧ resolved_code env root dict s = None ∧
       msg = msg_unresolved s root.
Proof.
  intros (s & Hs & Hw)%list_elem_of_omap. exists s. split; [done|].
  unfold resolution_warning in Hw.
  destruct (resolved_code env root dict s); by simplify_eq.
Qed.

(** X4. Whether the constructor returns or raises, each warning it
    has issued is either the one for a requested identifier that was not
    accepted (only when [synsets] is given), or the one for an entry of a
    resolved category directory whose mesh file is absent.  The warning
    about a category unknown to the dictionary (lines 87-94) is never
    issued. *)
Theorem init_warnings env root synsets version r w msg :
  init env root synsets version = (r, w) →
  msg ∈ w →
  (∃ l s, synsets = Some l ∧ s ∈ l ∧ msg = msg_unresolved s root) ∨
  (∃ c m models,
     isdir env (path_join root [c]) = true ∧
     listdir env (path_join root [c]) = Some models ∧ m ∈ models ∧
     path_exists env (path_join root [c; m; mesh_of_version version]) = false ∧
     msg = msg_no_mesh m c).
Proof.
  intros Hinit Hmsg.
  destruct (version_ok version) eqn:Hv.
  2: { unfold init in Hinit. rewrite Hv in Hinit. simpl in Hinit.
       unfold raise in Hinit. simplify_eq. by apply elem_of_nil in Hmsg. }
  destruct (read_json env (path_join (SYNSET_DICT_DIR env) [dict_file version]))
    as [members|] eqn:Hj.
  2: { unfold init in Hinit. rewrite Hv in Hinit. simpl in Hinit.
       destruct (load_synset_dict_None _ _ Hj) as [[_ Hload]|(m & _ & Hload)];
         rewrite Hload in Hinit; simpl in Hinit; simplify_eq;
         by apply elem_of_nil in Hmsg. }
  rewrite (init_unfold _ _ _ _ _ Hv Hj) in Hinit.
  destruct (resolve env root (json_load members) synsets version)
    as [r1 w1] eqn:HS.
  assert (msg ∈ w1 →
    ∃ l s, synsets = Some l ∧ s ∈ l ∧ msg = msg_unresolved s root) as Hw1.
  { destruct synsets as [l|]; simpl in HS.
    - rewrite resolve_given_eq in HS. simplify_eq.
      intros (s & Hs & _ & ->)%resolution_warning_elem. by exists l, s.
    - pose proof (resolve_all_cases env root (json_load members) version) as Hc.
      destruct (listdir env root) as [names|]; cbv zeta in Hc;
        rewrite HS in Hc.
      + destruct Hc as [[_ Hc]|(k & _ & _ & Hc)]; simplify_eq;
          by intros ?%elem_of_nil.
      + simplify_eq. by intros ?%elem_of_nil. }
  destruct r1 as [e1|S].
  { simpl in Hinit. simplify_eq. left. by apply Hw1. }
  simpl in Hinit. unfold build_index in Hinit.
  assert (∀ codes, codes ⊆ set_order env S →
    msg ∈ codes ≫= mesh_warnings env root (mesh_of_version version) →
    ∃ c m models,
      isdir env (path_join root [c]) = true ∧
      listdir env (path_join root [c]) = Some models ∧ m ∈ models ∧
      path_exists env (path_join root [c; m; mesh_of_version version]) = false ∧
      msg = msg_no_mesh m c) as Hw2.
  { intros codes Hsub (c & m & models & Hc & Hl & Hm & Hex & ->)%mesh_warnings_elem.
    exists c, m, models. split_and!; try done.
    eapply resolve_isdir; [done|]. by apply (set_order_elem_1 env), Hsub. }
  destruct (for_each_index_synset_cases env root (mesh_of_version version)
              (set_order env S) ([], []))
    as [Hall|(codes1 & c & codes2 & Hcodes & _ & Hnone & Heq)].
  - rewrite (for_each_index_synset _ _ _ _ _ Hall) in Hinit.
    simpl in Hinit. simplify_eq. rewrite app_nil_r in Hmsg.
    apply elem_of_app in Hmsg as [Hmsg|Hmsg]; [left; by apply Hw1|].
    right. by apply (Hw2 (set_order env S)).
  - rewrite Heq in Hinit. simpl in Hinit. simplify_eq.
    apply elem_of_app in Hmsg as [Hmsg|Hmsg]; [left; by apply Hw1|].
    right. apply (Hw2 codes1); [|done].
    rewrite Hcodes. intros x Hx. apply elem_of_app. by left.
Qed.

Lemma init_warnings_witness :
  (∃ l s, Some ["airplane"; "zzz"] = Some l ∧ s ∈ l ∧
          msg_unresolved "zzz" "root" = msg_unresolved s "root") ∨
  (∃ c m models,
     isdir Sample.env1 (path_join "root" [c]) = true ∧
     listdir Sample.env1 (path_join "root" [c]) = Some models ∧ m ∈ models ∧
     path_exists Sample.env1 (path_join "root" [c; m; mesh_of_version 1])
       = false ∧
     msg_unresolved "zzz" "root" = msg_no_mesh m c).
Proof.
  apply (init_warnings Sample.env1 "root" (Some ["airplane"; "zzz"]) 1
           (inr {| data_dir := "root"; model_dir := "model.obj";
                   synset_dict := Sample.members_v1;
                   synset_ids := ["02691156"]; model_ids := ["m1"] |})
           [msg_unresolved "zzz" "root"; msg_no_mesh "m2" "02691156"]).
  - vm_compute. reflexivity.
  - apply list_elem_of_In. simpl. tauto.
Defined.

(** *** What the index holds *)

Lemma index_of_elem env root synsets version self w :
  init env root synsets version = (inr self, w) →
  ∃ S w1,
    resolve env root (synset_dict self) synsets version = (inr S, w1) ∧
    ∀ c m, (c, m) ∈ index_of self ↔
      c ∈ S ∧
      (∃ models, listdir env (path_join root [c]) = Some models ∧ m ∈ models) ∧
      path_exists env (path_join root [c; m; model_dir self]) = true.
Proof.
  intros Hinit.
  destruct (init_inr _ _ _ _ _ _ Hinit)
    as (_ & _ & _ & _ & _ & _ & _ & _ & _ & _ & Hmesh & _).
  destruct (index_of_init _ _ _ _ _ _ Hinit)
    as (dict & S & w1 & <- & HS & Hall & Hidx & _).
  exists S, w1. split; [done|]. intros c m.
  rewrite Hidx, entries_of_fst, elem_of_set_order, Hmesh.
  unfold has_mesh, listing. rewrite Forall_forall in Hall. split.
  - intros (Hc & Hm & Hex). split_and!; try done.
    destruct (Hall c) as [models Hl]; [by apply set_order_elem_2|].
    rewrite Hl in Hm. by exists models.
  - intros (Hc & (models & Hl & Hm) & Hex). by rewrite Hl.
Qed.

(** X5. A dataset constructed without [synsets] indexes exactly the
    pairs (entry of the root that is a directory, entry of that directory
    whose mesh file exists); entries of the root that are not directories
    contribute nothing. *)
Theorem init_all_index env root version self w :
  init env root None version = (inr self, w) →
  ∃ names, listdir env root = Some names ∧
    ∀ c m, (c, m) ∈ index_of self ↔
      c ∈ names ∧ isdir env (path_join root [c]) = true ∧
      (∃ models, listdir env (path_join root [c]) = Some models ∧ m ∈ models) ∧
      path_exists env (path_join root [c; m; model_dir self]) = true.
Proof.
  intros Hinit.
  destruct (index_of_elem _ _ _ _ _ _ Hinit) as (S & w1 & HS & Hiff).
  simpl in HS. apply resolve_all_inr in HS as (names & Hl & -> & _ & _).
  exists names. split; [done|]. intros c m. rewrite Hiff.
  rewrite elem_of_list_to_set, list_elem_of_In, filter_In, <- list_elem_of_In.
  tauto.
Qed.

Lemma init_all_index_witness :
  ∃ names, listdir Sample.env1 "root" = Some names ∧
    ∀ c m, (c, m) ∈ index_of Sample.ds1 ↔
      c ∈ names ∧ isdir Sample.env1 (path_join "root" [c]) = true ∧
      (∃ models, listdir Sample.env1 (path_join "root" [c]) = Some models
                 ∧ m ∈ models) ∧
      path_exists Sample.env1 (path_join "root" [c; m; model_dir Sample.ds1])
        = true.
Proof.
  apply (init_all_index Sample.env1 "root" 1 Sample.ds1
           [msg_no_mesh "m2" "02691156"]).
  vm_compute. reflexivity.
Defined.

(** X6. In either mode, every category of a constructed dataset's index
    passed the directory test under the root, and its directory could be
    listed. *)
Theorem index_synsets_are_directories env root synsets version self w c :
  init env root synsets version = (inr self, w) →
  c ∈ synset_ids self →
  isdir env (path_join root [c]) = true ∧
  is_Some (listdir env (path_join root [c])).
Proof.
  intros Hinit Hc.
  destruct (init_index_fst_snd _ _ _ _ _ _ Hinit) as [H1 _].
  rewrite H1 in Hc. apply list_elem_of_fmap in Hc as ([c' m] & -> & Hcm).
  destruct (index_of_init _ _ _ _ _ _ Hinit)
    as (dict & S & w1 & _ & HS & Hall & Hidx & _).
  rewrite Hidx in Hcm. apply entries_of_fst in Hcm as (Hc & _ & _).
  split.
  - eapply resolve_isdir; [done|]. by eapply set_order_elem_1.
  - rewrite Forall_forall in Hall. by apply Hall.
Qed.

Lemma index_synsets_are_directories_witness :
  isdir Sample.env1 (path_join "root" ["02958343"]) = true ∧
  is_Some (listdir Sample.env1 (path_join "root" ["02958343"])).
Proof.
  apply (index_synsets_are_directories Sample.env1 "root"
           (Some ["car"; "airplane"]) 1 Sample.ds1
           [msg_no_mesh "m2" "02691156"] "02958343").
  - vm_compute. reflexivity.
  - apply list_elem_of_In. simpl. tauto.
Defined.

Lemma filter_split_length {A} (f : A → bool) (l : list A) :
  (length (List.filter f l) + length (List.filter (λ x, negb (f x)) l))%nat
  = length l.
Proof.
  induction l as [|x l IH]; [done|]. simpl.
  destruct (f x); simpl; lia.
Qed.

Lemma entries_warnings_length env root mesh codes :
  (length (codes ≫= entries_of env root mesh)
   + length (codes ≫= mesh_warnings env root mesh))%nat
  = length (codes ≫= listing env root).
Proof.
  induction codes as [|c codes IH]; [done|].
  rewrite !bind_cons, !length_app, <- IH.
  unfold entries_of, mesh_warnings. rewrite !length_fmap.
  pose proof (filter_split_length (has_mesh env root mesh c)
                (listing env root c)). lia.
Qed.

(** X7. Every entry of a resolved category directory is accounted for
    once: the size of the dataset plus the number of warnings about absent
    mesh files is the number of entries of those directories.  Without
    [synsets] these are all the warnings. *)
Theorem every_entry_accounted env root synsets version self w :
  init env root synsets version = (inr self, w) →
  ∃ S w1 w2,
    resolve env root (synset_dict self) synsets version = (inr S, w1) ∧
    w = w1 ++ w2 ∧
    (synsets = None → w1 = []) ∧
    len self + Z.of_nat (length w2)
      = Z.of_nat (length (elements S ≫= listing env root)).
Proof.
  intros Hinit.
  destruct (index_of_init _ _ _ _ _ _ Hinit)
    as (dict & S & w1 & <- & HS & _ & Hidx & ->).
  destruct (init_index_fst_snd _ _ _ _ _ _ Hinit) as [_ H2].
  exists S, w1, (set_order env S ≫= mesh_warnings env root (mesh_of_version version)).
  split_and!; try done.
  - intros ->. simpl in HS.
    by apply resolve_all_inr in HS as (names & _ & _ & -> & _).
  - unfold len. rewrite H2, length_fmap, Hidx.
    assert (length (elements S ≫= listing env root)
            = length (set_order env S ≫= listing env root)) as ->.
    { apply Permutation_length. by rewrite (set_order_perm env S). }
    rewrite <- (entries_warnings_length env root (mesh_of_version version)).
    lia.
Qed.

Lemma every_entry_accounted_witness :
  ∃ S w1 w2,
    resolve Sample.env1 "root" (synset_dict Sample.ds1) None 1 = (inr S, w1) ∧
    [msg_no_mesh "m2" "02691156"] = w1 ++ w2 ∧
    (@None (list string) = None → w1 = []) ∧
    len Sample.ds1 + Z.of_nat (length w2)
      = Z.of_nat (length (elements S ≫= listing Sample.env1 "root")).
Proof.
  apply (every_entry_accounted Sample.env1 "root" None 1 Sample.ds1
           [msg_no_mesh "m2" "02691156"]).
  vm_compute. reflexivity.
Defined.

(** *** The inverse dictionary *)

Lemma fold_invert_get (items acc : pydict) l :
  dict_get (fold_left (λ inv ol, dict_set inv ol.2 ol.1) items acc) l =
  match last (List.filter (λ ol : string * string, bool_decide (ol.2 = l)) items) with
  | Some ol => Some ol.1
  | None => dict_get acc l
  end.
Proof.
  revert acc. induction items as [|[c0 l0] items IH]; intros acc; [done|].
  cbn [fold_left List.filter snd fst]. rewrite IH, dict_get_set.
  destruct (decide (l = l0)) as [->|Hne].
  - rewrite bool_decide_eq_true_2 by done. rewrite last_cons.
    by destruct (last _).
  - by rewrite bool_decide_eq_false_2 by done.
Qed.

(** X8. The inverse dictionary maps a label to the code of the last
    item of the dictionary that carries this label, and has no entry for a
    string that is no label. *)
Theorem invert_dict_last (d : pydict) l :
  dict_get (invert_dict d) l =
  fst <$> last (List.filter (λ ol : string * string, bool_decide (ol.2 = l)) d).
Proof.
  unfold invert_dict. rewrite fold_invert_get. by destruct (last _).
Qed.

Lemma label_unique (d : pydict) c c' l :
  NoDup d.*2 → (c, l) ∈ d → (c', l) ∈ d → c = c'.
Proof.
  induction d as [|[c0 l0] d IH]; [by intros _ ?%elem_of_nil|].
  rewrite fmap_cons, NoDup_cons, !elem_of_cons. intros [Hnin Hnd] H1 H2.
  assert (∀ x, (x, l0) ∈ d → False) as Hno.
  { intros x Hx. apply Hnin, list_elem_of_fmap. by exists (x, l0). }
  destruct H1 as [H1|H1], H2 as [H2|H2]; simplify_eq; try done.
  - by destruct (Hno c').
  - by destruct (Hno c).
  - by apply IH.
Qed.

(** X9. When no two items of the dictionary share a label, the inverse
    dictionary undoes the dictionary: it maps [l] to [c] exactly when [(c,
    l)] is an item.  A request for a label [l] that is not itself an
    accepted code is then accepted as the code [c], provided the directory
    of [c] exists. *)
Theorem invert_dict_round_trip env root (d : pydict) c l :
  NoDup d.*2 →
  (dict_get (invert_dict d) l = Some c ↔ (c, l) ∈ d) ∧
  ((c, l) ∈ d →
   ¬ (dict_contains d l = true ∧ isdir env (path_join root [l]) = true) →
   isdir env (path_join root [c]) = true →
   ∀ S, resolve_synset env root d (invert_dict d) l S
          = (inr ({[ c ]} ∪ S), [])).
Proof.
  intros Hnd.
  assert ((c, l) ∈ d → dict_get (invert_dict d) l = Some c) as Hback.
  { intros Hcl.
    destruct (dict_get (invert_dict d) l) as [c'|] eqn:Hget.
    - apply invert_dict_elem in Hget. f_equal. by eapply label_unique.
    - rewrite invert_dict_last in Hget.
      destruct (last _) as [ol|] eqn:Hlast; [done|].
      apply last_None in Hlast.
      assert ((c, l) ∈ List.filter
                (λ ol : string * string, bool_decide (ol.2 = l)) d) as Hin.
      { apply list_elem_of_In, filter_In. rewrite <- list_elem_of_In.
        split; [done|]. by apply bool_decide_eq_true_2. }
      rewrite Hlast in Hin. by apply elem_of_nil in Hin. }
  split.
  - split; [apply invert_dict_elem|done].
  - intros Hcl Hn Hdir S. rewrite resolve_synset_eq.
    assert (resolved_code env root d l = Some c) as ->; [|done].
    apply resolved_code_spec. right. split_and!; auto.
Qed.

Lemma invert_dict_round_trip_witness :
  (dict_get (invert_dict Sample.members_v1) "car" = Some "02958343" ↔
   ("02958343", "car") ∈ Sample.members_v1) ∧
  (("02958343", "car") ∈ Sample.members_v1 →
   ¬ (dict_contains Sample.members_v1 "car" = true ∧
      isdir Sample.env1 (path_join "root" ["car"]) = true) →
   isdir Sample.env1 (path_join "root" ["02958343"]) = true →
   ∀ S, resolve_synset Sample.env1 "root" Sample.members_v1
          (invert_dict Sample.members_v1) "car" S
          = (inr ({[ "02958343" ]} ∪ S), [])).
Proof.
  apply (invert_dict_round_trip Sample.env1 "root" Sample.members_v1
           "02958343" "car").
  refine (bool_decide_unpack (NoDup (Sample.members_v1.*2)) _).
  vm_compute. exact I.
Defined.

(** *** The request as a set *)

(** X10. The order of the requested identifiers and their repetition do
    not matter for what is indexed: when a request yields a dataset, a
    request with the same identifiers, in any order and any number of
    times, yields a dataset with the same dictionary and the same index up
    to the order of its entries. *)
Theorem request_order_irrelevant env root version (l1 l2 : list string) self1 w1 :
  init env root (Some l1) version = (inr self1, w1) →
  (∀ s, s ∈ l1 ↔ s ∈ l2) →
  ∃ self2 w2,
    init env root (Some l2) version = (inr self2, w2) ∧
    synset_dict self2 = synset_dict self1 ∧
    index_of self1 ≡ₚ index_of self2 ∧
    len self1 = len self2.
Proof.
  intros Hinit Hsame.
  destruct (init_inr _ _ _ _ _ _ Hinit)
    as (Hv & members & S & v1 & v2 & Hj & HS & Hb & _ & _ & _ & Hd).
  apply build_index_inr in Hb as (Hall & H1 & H2 & _). simpl in *.
  rewrite resolve_given_eq in HS. simplify_eq.
  assert ((list_to_set (omap (resolved_code env root (json_load members)) l2)
            : gset string)
          = list_to_set (omap (resolved_code env root (json_load members)) l1))
    as HS2.
  { apply set_eq. intros c.
    rewrite !elem_of_list_to_set, !list_elem_of_omap.
    split; intros (s & Hs & Hr); exists s; (split; [by apply Hsame|done]). }
  pose proof (resolve_given_eq env root (json_load members) l2) as Hres.
  rewrite HS2 in Hres.
  eexists _, _. split.
  { apply (init_after_resolve _ _ (Some l2) _ _ _ _ Hv Hj Hres Hall). }
  simpl. split_and!.
  - done.
  - unfold index_of. simpl. by rewrite H1, H2.
  - unfold len. simpl. by rewrite H2.
Qed.

Lemma request_order_irrelevant_witness :
  ∃ self2 w2,
    init Sample.env1 "root" (Some ["02691156"; "car"; "airplane"]) 1
      = (inr self2, w2) ∧
    synset_dict self2 = synset_dict Sample.ds1 ∧
    index_of Sample.ds1 ≡ₚ index_of self2 ∧
    len Sample.ds1 = len self2.
Proof.
  apply (request_order_irrelevant Sample.env1 "root" 1
           ["car"; "airplane"; "02691156"; "car"]
           ["02691156"; "car"; "airplane"] Sample.ds1
           [msg_no_mesh "m2" "02691156"]).
  - vm_compute. reflexivity.
  - intros s. rewrite !list_elem_of_In. simpl. tauto.
Defined.

Lemma omap_none_nil {A B} (f : A → option B) (l : list A) :
  (∀ x, x ∈ l → f x = None) → omap f l = [].
Proof.
  induction l as [|x l IH]; intros Hnone; [done|]. csimpl.
  rewrite (Hnone x) by (by left). apply IH. intros y Hy. apply Hnone. by right.
Qed.

(** X11. When none of the requested identifiers is accepted, and in
    particular when the request is the empty list, the constructor still
    returns: the dataset is empty, there is one warning for each
    identifier, in the order of the request, and every subscript raises
    [IndexError]. *)
Theorem init_nothing_accepted {Verts Faces VertsIdx}
    (loader : Loader Verts Faces VertsIdx) env root (synsets : list string)
    version members :
  version = 1 ∨ version = 2 →
  read_json env (path_join (SYNSET_DICT_DIR env) [dict_file version])
    = Some members →
  (∀ s, s ∈ synsets → resolved_code env root (json_load members) s = None) →
  ∃ self,
    init env root (Some synsets) version
      = (inr self, (λ s, msg_unresolved s root) <$> synsets) ∧
    synset_ids self = [] ∧ model_ids self = [] ∧ len self = 0 ∧
    ∀ idx, getitem loader self idx = inl IndexError.
Proof.
  intros Hv%version_ok_true Hj Hnone.
  pose proof (resolve_given_eq env root (json_load members) synsets) as HS.
  rewrite (omap_none_nil _ _ Hnone) in HS.
  assert (omap (resolution_warning env root (json_load members)) synsets
          = (λ s, msg_unresolved s root) <$> synsets) as Hw.
  { clear HS. induction synsets as [|s l IH]; [done|]. csimpl.
    unfold resolution_warning at 1. rewrite (Hnone s) by (by left).
    rewrite IH; [done|]. intros y Hy. apply Hnone. by right. }
  rewrite Hw in HS. simpl in HS.
  pose proof (init_after_resolve _ _ (Some synsets) _ _ _ _ Hv Hj HS) as Hinit.
  rewrite set_order_empty in Hinit. specialize (Hinit ltac:(constructor)).
  simpl in Hinit. rewrite app_nil_r in Hinit.
  eexists. split; [exact Hinit|]. simpl. split_and!; try done.
  intros idx. unfold getitem. simpl.
  rewrite (list_subscript_out [] idx); [done|]. simpl. lia.
Qed.

Lemma init_nothing_accepted_witness :
  ∃ self,
    init Sample.env1 "root" (Some ["zzz"; "boat"]) 1
      = (inr self, (λ s, msg_unresolved s "root") <$> ["zzz"; "boat"]) ∧
    synset_ids self = [] ∧ model_ids self = [] ∧ len self = 0 ∧
    ∀ idx, getitem Sample.loader1 self idx = inl IndexError.
Proof.
  apply (init_nothing_accepted Sample.loader1 Sample.env1 "root"
           ["zzz"; "boat"] 1 Sample.members_v1).
  - left. reflexivity.
  - vm_compute. reflexivity.
  - intros s Hs. apply list_elem_of_In in Hs. simpl in Hs.
    destruct Hs as [<-|[<-|[]]]; vm_compute; reflexivity.
Defined.

(** *** Distinct entries *)

Lemma NoDup_list_filter {A} (f : A → bool) (l : list A) :
  NoDup l → NoDup (List.filter f l).
Proof.
  induction 1 as [|x l Hnin Hnd IH]; simpl; [constructor|].
  destruct (f x); [|done]. constructor; [|done].
  rewrite list_elem_of_In, filter_In, <- list_elem_of_In. tauto.
Qed.

Lemma NoDup_entries env root mesh codes :
  NoDup codes →
  (∀ c, c ∈ codes → NoDup (listing env root c)) →
  NoDup (codes ≫= entries_of env root mesh).
Proof.
  intros Hcodes Hlist. apply NoDup_bind; [| |done].
  - intros c1 c2 [c m] _ _ H1 H2. unfold entries_of in *.
    apply list_elem_of_fmap in H1 as (? & ? & _).
    apply list_elem_of_fmap in H2 as (? & ? & _). congruence.
  - intros c Hc. unfold entries_of.
    apply NoDup_fmap_2; [by intros ?? [=]|].
    by apply NoDup_list_filter, Hlist.
Qed.

(** X12. When no directory listing repeats a name, no pair (synset,
    model) occurs twice in the index of a constructed dataset: two positions
    with the same synset and the same model are the same position. *)
Theorem index_no_duplicates env root synsets version self w :
  init env root synsets version = (inr self, w) →
  (∀ p names, listdir env p = Some names → NoDup names) →
  NoDup (index_of self) ∧
  ∀ (i j : nat) c m,
    synset_ids self !! i = Some c → model_ids self !! i = Some m →
    synset_ids self !! j = Some c → model_ids self !! j = Some m →
    i = j.
Proof.
  intros Hinit Hnd.
  destruct (index_of_init _ _ _ _ _ _ Hinit)
    as (dict & S & w1 & _ & _ & _ & Hidx & _).
  assert (NoDup (index_of self)) as Hindex.
  { rewrite Hidx. apply NoDup_entries; [apply NoDup_set_order|].
    intros c _. unfold listing.
    destruct (listdir env (path_join root [c])) as [names|] eqn:Hl;
      [by eapply Hnd|constructor]. }
  split; [done|]. intros i j c m Hci Hmi Hcj Hmj.
  eapply NoDup_lookup; [exact Hindex| |]; by apply index_of_lookup.
Qed.

Lemma index_no_duplicates_witness :
  NoDup (index_of Sample.ds1) ∧
  ∀ (i j : nat) c m,
    synset_ids Sample.ds1 !! i = Some c → model_ids Sample.ds1 !! i = Some m →
    synset_ids Sample.ds1 !! j = Some c → model_ids Sample.ds1 !! j = Some m →
    i = j.
Proof.
  apply (index_no_duplicates Sample.env1 "root" None 1 Sample.ds1
           [msg_no_mesh "m2" "02691156"]).
  - vm_compute. reflexivity.
  - intros p names Hl.
    assert (names ∈ [["02691156"; "02958343"; "README"]; ["m1"; "m2"];
                     ["model.obj"]; []; ["c1"]]) as Hin.
    { unfold Sample.env1, Sample.mk_env, Sample.assoc in Hl. simpl in Hl.
      repeat (case_bool_decide; [simpl in Hl; injection Hl as <-;
        apply list_elem_of_In; simpl; tauto|]).
      discriminate Hl. }
    apply list_elem_of_In in Hin. simpl in Hin.
    destruct Hin as [<-|[<-|[<-|[<-|[<-|[]]]]]];
      refine (bool_decide_unpack (NoDup _) _); vm_compute; exact I.
Defined.

(** *** The path of a mesh file *)

Lemma append_nonempty p s : s ≠ "" → p +:+ s ≠ "".
Proof. intros Hs. destruct p; [done|discriminate]. Qed.

Lemma append_assoc p q s : (p +:+ q) +:+ s = p +:+ q +:+ s.
Proof.
  induction p as [|a p IH]; [done|].
  change (String a ((p +:+ q) +:+ s) = String a (p +:+ q +:+ s)).
  by rewrite IH.
Qed.

Lemma endswith_sep_app p s :
  s ≠ "" → endswith_sep (p +:+ s) = endswith_sep s.
Proof.
  intros Hs. induction p as [|a p IH]; [done|].
  pose proof (append_nonempty p s Hs) as Hps.
  change (String a p +:+ s) with (String a (p +:+ s)).
  destruct (p +:+ s) as [|b q] eqn:Heq; [done|].
  by rewrite <- IH.
Qed.

Lemma join_step_relative p b :
  p ≠ "" → startswith_sep b = false → endswith_sep p = false →
  join_step p b = p +:+ "/" +:+ b.
Proof.
  intros Hp Hb He. unfold join_step.
  by rewrite Hb, He, bool_decide_eq_false_2.
Qed.

Lemma join_step_after_sep p b :
  startswith_sep b = false → endswith_sep p = true →
  join_step p b = p +:+ b.
Proof.
  intros Hb He. unfold join_step. by rewrite Hb, He, orb_true_r.
Qed.

(** X13. For a root that is not empty and an entry of the index whose
    synset and model names are not empty and neither begin nor end with a
    slash, the path tested by the constructor and handed to the loader by
    [getitem] is [<root>/<synset>/<model>/<mesh>], with no slash added after
    a root that already ends with one. *)
Theorem model_path_layout root c m version :
  root ≠ "" →
  c ≠ "" → startswith_sep c = false → endswith_sep c = false →
  m ≠ "" → startswith_sep m = false → endswith_sep m = false →
  path_join root [c; m; mesh_of_version version] =
  root +:+ (if endswith_sep root then "" else "/")
       +:+ c +:+ "/" +:+ m +:+ "/" +:+ mesh_of_version version.
Proof.
  intros Hroot Hc Hcs Hce Hm Hms Hme.
  assert (startswith_sep (mesh_of_version version) = false) as Hmesh.
  { unfold mesh_of_version. by case_bool_decide. }
  assert (∀ p, p +:+ "/" +:+ m ≠ "") as Hne1.
  { intros p. by do 2 apply append_nonempty. }
  assert (∀ p, endswith_sep (p +:+ "/" +:+ m) = false) as Hend1.
  { intros p. by rewrite !endswith_sep_app by (by repeat apply append_nonempty). }
  unfold path_join. cbn [fold_left].
  destruct (endswith_sep root) eqn:Hre.
  - rewrite (join_step_after_sep root c Hcs Hre).
    rewrite (join_step_relative (root +:+ c) m);
      [|by apply append_nonempty|done|by rewrite endswith_sep_app].
    rewrite (join_step_relative _ _ (Hne1 _) Hmesh (Hend1 _)).
    by rewrite !append_assoc.
  - rewrite (join_step_relative root c Hroot Hcs Hre).
    rewrite (join_step_relative (root +:+ "/" +:+ c) m);
      [|by do 2 apply append_nonempty|done
       |by rewrite !endswith_sep_app by (by repeat apply append_nonempty)].
    rewrite (join_step_relative _ _ (Hne1 _) Hmesh (Hend1 _)).
    by rewrite !append_assoc.
Qed.

Lemma model_path_layout_witness :
  path_join "data/" ["02691156"; "m1"; mesh_of_version 2] =
  "data/" +:+ (if endswith_sep "data/" then "" else "/")
       +:+ "02691156" +:+ "/" +:+ "m1" +:+ "/" +:+ mesh_of_version 2.
Proof.
  apply (model_path_layout "data/" "02691156" "m1" 2); done.
Defined.

(** *** The two modes *)

Lemma omap_cons_Some {A B} (f : A → option B) x l y :
  f x = Some y → omap f (x :: l) = y :: omap f l.
Proof. intros H. csimpl. by rewrite H. Qed.

Lemma omap_cons_None {A B} (f : A → option B) x l :
  f x = None → omap f (x :: l) = omap f l.
Proof. intros H. csimpl. by rewrite H. Qed.

Lemma omap_resolved_directories env root dict (names : list string) :
  (∀ c, c ∈ names → isdir env (path_join root [c]) = true →
        dict_contains dict c = true) →
  omap (resolved_code env root dict)
    (List.filter (λ synset, isdir env (path_join root [synset])) names)
  = List.filter (λ synset, isdir env (path_join root [synset])) names ∧
  omap (resolution_warning env root dict)
    (List.filter (λ synset, isdir env (path_join root [synset])) names) = [].
Proof.
  induction names as [|c names IH]; intros Hkeys; [done|].
  destruct IH as [IH1 IH2]; [by intros c' Hc'; apply Hkeys; right|].
  cbn [List.filter].
  destruct (isdir env (path_join root [c])) eqn:Hdir; [|done].
  assert (resolved_code env root dict c = Some c) as Hr.
  { unfold resolved_code. by rewrite (Hkeys c) by (done || by left); rewrite Hdir. }
  assert (resolution_warning env root dict c = None) as Hw.
  { unfold resolution_warning. by rewrite Hr. }
  rewrite (omap_cons_Some _ _ _ _ Hr), (omap_cons_None _ _ _ Hw).
  by rewrite IH1, IH2.
Qed.

(** X14. When the constructor returns without [synsets], requesting
    instead the entries of the root that are directories returns as well,
    with the same dictionary, the same index up to the order of its
    entries, and the same warnings up to their order. *)
Theorem init_all_as_request env root version self w names :
  init env root None version = (inr self, w) →
  listdir env root = Some names →
  ∃ self' w',
    init env root
      (Some (List.filter (λ synset, isdir env (path_join root [synset])) names))
      version = (inr self', w') ∧
    synset_dict self' = synset_dict self ∧
    index_of self ≡ₚ index_of self' ∧
    w ≡ₚ w'.
Proof.
  intros Hinit Hl.
  destruct (init_inr _ _ _ _ _ _ Hinit)
    as (Hv & members & S & v1 & v2 & Hj & HS & Hb & -> & _ & _ & Hd).
  apply build_index_inr in Hb as (Hall & H1 & H2 & ->). simpl in *.
  apply resolve_all_inr in HS as (names' & Hl' & -> & -> & Hkeys).
  rewrite Hl in Hl'. simplify_eq.
  destruct (omap_resolved_directories env root (json_load members) names')
    as [Hcodes Hwarn].
  { intros c Hc Hdir. apply Hkeys.
    apply elem_of_list_to_set, list_elem_of_In, filter_In.
    by rewrite <- list_elem_of_In. }
  pose proof (resolve_given_eq env root (json_load members)
    (List.filter (λ synset, isdir env (path_join root [synset])) names'))
    as Hres.
  rewrite Hcodes, Hwarn in Hres.
  eexists _, _. split.
  { apply (init_after_resolve _ _ (Some _) _ _ _ _ Hv Hj Hres Hall). }
  simpl. split_and!; [done| |done].
  unfold index_of. simpl. by rewrite H1, H2.
Qed.

Lemma init_all_as_request_witness :
  ∃ self' w',
    init Sample.env1 "root"
      (Some (List.filter
               (λ synset, isdir Sample.env1 (path_join "root" [synset]))
               ["02691156"; "02958343"; "README"]))
      1 = (inr self', w') ∧
    synset_dict self' = synset_dict Sample.ds1 ∧
    index_of Sample.ds1 ≡ₚ index_of self' ∧
    [msg_no_mesh "m2" "02691156"] ≡ₚ w'.
Proof.
  apply (init_all_as_request Sample.env1 "root" 1 Sample.ds1
           [msg_no_mesh "m2" "02691156"] ["02691156"; "02958343"; "README"]).
  - vm_compute. reflexivity.
  - vm_compute. reflexivity.
Defined.
